(** * DataStore: an LRU cache in front of a sqlite table

    Shallow embedding of [include/DataStore.h] (class [DataStore]) and
    proofs about its cache engine: the recency list, the key index, the
    modification map, eviction and the purge on destruction.

    Modelling conventions.
    - [std::string] is [string]; [size_t] is [nat] (the counters involved are
      container sizes, which never wrap).
    - [std::list<key_val_pair>] is a list of nodes, each carrying the identity
      an iterator refers to: a [std::list] iterator stays valid until its own
      node is erased, whatever happens to the other nodes.
    - [std::unordered_map] is stdpp's [gmap].
    - The class hands SQL text to sqlite: the text is assembled as in the
      source, key and value pasted in as they are, and cut at the first NUL
      where the source passes [c_str()].
    - The sqlite handle [m_db] is the contents of table [data] (a map from
      keys to values, [key] being the primary key, the values as
      [sqlite3_column_text] presents them), a flag telling whether calls to
      the library currently succeed, the journal of the statements handed to
      [sqlite3_exec], whether they succeeded or not, and the answers of the
      engine to text that is none of the three statements the class means
      to build. Whatever else a database file may hold is outside the model.
    - Where C++ leaves the behaviour undefined (an iterator whose node is
      gone, the last element of an empty list) the model does nothing; the
      invariant proved below shows that no reachable state gets there. *)

From Stdlib Require Import Ascii.
From stdpp Require Import gmap strings list fin_maps sorting.

Open Scope string_scope.
Open Scope list_scope.
Open Scope nat_scope.

Definition key_val_pair : Type := string * string.

(** [std::list<key_val_pair>::iterator]: the identity of a list node.
    [0] is the past-the-end iterator. *)
Definition list_itr : Type := nat.

(** ** [std::list<key_val_pair>] *)
Module StdList.

Definition node : Type := list_itr * key_val_pair.

Definition node_key (n : node) : string := n.2.1.

Definition keys (l : list node) : list string := node_key <$> l.
Definition itrs (l : list node) : list list_itr := fst <$> l.

Definition end_ : list_itr := 0.

(** Identity of a newly allocated node: one no live node has. *)
Definition fresh (l : list node) : list_itr := S (max_list (itrs l)).

Definition push_front (e : key_val_pair) (l : list node) : list node :=
  (fresh l, e) :: l.

Definition begin (l : list node) : list_itr :=
  match l with
  | [] => end_
  | n :: _ => n.1
  end.

(** [l.erase(it)]: unlink the node [it] refers to. *)
Definition erase (it : list_itr) (l : list node) : list node :=
  filter (λ n, n.1 ≠ it) l.

Fixpoint find_node (it : list_itr) (l : list node) : option node :=
  match l with
  | [] => None
  | n :: l' => if decide (n.1 = it) then Some n else find_node it l'
  end.

(** [*it]. Dereferencing an iterator whose node is gone is undefined in
    C++; the model answers [None] there. *)
Definition deref (it : list_itr) (l : list node) : option key_val_pair :=
  snd <$> find_node it l.

(** [l.splice(l.begin(), l, it)]: relink node [it] at the front. *)
Definition splice_front (it : list_itr) (l : list node) : list node :=
  match find_node it l with
  | Some n => n :: erase it l
  | None => l
  end.

(** [*l.rbegin()] and [l.back()]. *)
Definition back (l : list node) : option node := last l.

Definition pop_back (l : list node) : list node := removelast l.

End StdList.

(** ** The sqlite database behind [m_db] *)
Module Sqlite3.

(** *** SQL text *)

Definition quote_char : ascii := "'"%char.
Definition nul_char : ascii := "000"%char.

(** [s.c_str()] read as a C string: what precedes the first NUL. *)
Fixpoint c_str (s : string) : string :=
  match s with
  | EmptyString => EmptyString
  | String c s' =>
      if decide (c = nul_char) then EmptyString else String c (c_str s')
  end.

(** [s] without its prefix [p], if it starts with [p]. *)
Fixpoint drop_prefix (p s : string) : option string :=
  match p with
  | EmptyString => Some s
  | String a p' =>
      match s with
      | EmptyString => None
      | String b s' => if decide (a = b) then drop_prefix p' s' else None
      end
  end.

(** A string literal, read from just after its opening quote: the string
    it denotes (a doubled quote stands for one quote) and the text after
    its closing quote; [None] when the literal is not closed. *)
Fixpoint scan_literal (s : string) : option (string * string) :=
  match s with
  | EmptyString => None
  | String c s' =>
      if decide (c = quote_char) then
        match s' with
        | String c' s'' =>
            if decide (c' = quote_char)
            then (λ r, (String quote_char r.1, r.2)) <$> scan_literal s''
            else Some (EmptyString, s')
        | EmptyString => Some (EmptyString, EmptyString)
        end
      else (λ r, (String c r.1, r.2)) <$> scan_literal s'
  end.

Definition create_table_sql : string :=
  "CREATE TABLE IF NOT EXISTS data (key CHAR PRIMARY KEY, value TEXT)".

Definition insert_sql : string :=
  "INSERT OR REPLACE INTO data (key, value) VALUES ".

Definition select_sql : string :=
  "SELECT value FROM data WHERE key = '".

(** One [( 'key', 'value' )] and the text after it. *)
Definition parse_tuple (s : string) : option (key_val_pair * string) :=
  s1 ← drop_prefix "( '" s;
  r1 ← scan_literal s1;
  s2 ← drop_prefix ", '" r1.2;
  r2 ← scan_literal s2;
  s3 ← drop_prefix " )" r2.2;
  Some ((r1.1, r2.1), s3).

(** Tuples separated by commas and closed by a semicolon that ends the
    text. [fuel] bounds the number of tuples. *)
Fixpoint parse_tuples (fuel : nat) (s : string)
  : option (list key_val_pair) :=
  match fuel with
  | 0 => None
  | S fuel' =>
      r ← parse_tuple s;
      if decide (r.2 = ";") then Some [r.1]
      else s' ← drop_prefix "," r.2;
           rows ← parse_tuples fuel' s';
           Some (r.1 :: rows)
  end.

(** What [sqlite3_exec] is asked to do. [Other] is any text that is not, to
    the letter, one of the two statements the class means to hand it. *)
Inductive stmt : Type :=
| CreateTable
    (* CREATE TABLE IF NOT EXISTS data (key CHAR PRIMARY KEY, value TEXT) *)
| InsertOrReplace (rows : list key_val_pair)
    (* INSERT OR REPLACE INTO data (key, value) VALUES ( 'k', 'v' ),...; *)
| Other (text : string).

Definition parse_stmt (text : string) : stmt :=
  if decide (text = create_table_sql) then CreateTable
  else match drop_prefix insert_sql text with
       | Some rest =>
           match parse_tuples (String.length text) rest with
           | Some rows => InsertOrReplace rows
           | None => Other text
           end
       | None => Other text
       end.

(** The key asked for by
    [SELECT value FROM data WHERE key = 'k' LIMIT 1;], if the text is that
    statement to the letter. *)
Definition parse_select (text : string) : option string :=
  s ← drop_prefix select_sql text;
  r ← scan_literal s;
  if decide (r.2 = " LIMIT 1;") then Some r.1 else None.

(** *** The database *)

(** The answers of the engine to any other text, as far as they depend on
    the text and on the table: for a statement to execute, the result code
    ([true] for [SQLITE_OK]) and the table afterwards; for a query, the
    rows produced before [SQLITE_DONE], or [None] for an error. A query
    cannot change the table. What such a text may do beyond table [data]
    (to the schema, to other tables) is outside the model. *)
Record foreign_sql : Type := mk_foreign_sql {
  foreign_exec : string → gmap string string → bool * gmap string string;
  foreign_query : string → gmap string string → option (list string)
}.

Record sqlite3 : Type := mk_sqlite3 {
  data : gmap string string;
  online : bool;
  journal : list stmt;
  foreign : foreign_sql
}.

(** Rows are applied left to right; a later row replaces an earlier one
    with the same key. *)
Definition upsert (rows : list key_val_pair) (tbl : gmap string string)
  : gmap string string :=
  foldl (λ m r, <[r.1 := r.2]> m) tbl rows.

(** The result code and the table after a statement is executed on an
    available database. *)
Definition apply_stmt (q : stmt) (f : foreign_sql) (tbl : gmap string string)
  : bool * gmap string string :=
  match q with
  | CreateTable => (true, tbl)
  | InsertOrReplace rows => (true, upsert rows tbl)
  | Other text => foreign_exec f text tbl
  end.

Definition exec_stmt (q : stmt) (d : sqlite3) : bool * sqlite3 :=
  if online d
  then let r := apply_stmt q (foreign d) (data d) in
       (r.1, mk_sqlite3 r.2 true (journal d ++ [q]) (foreign d))
  else (false, mk_sqlite3 (data d) false (journal d ++ [q]) (foreign d)).

(** [sqlite3_exec(db, text, ...) == SQLITE_OK], and the database
    afterwards. *)
Definition exec (text : string) (d : sqlite3) : bool * sqlite3 :=
  exec_stmt (parse_stmt text) d.

(** [sqlite3_prepare_v2] and the [sqlite3_step]s of a query: [None] when the
    library reports an error, otherwise the values of the rows produced
    before [SQLITE_DONE]. *)
Definition select_value (text : string) (d : sqlite3) : option (list string) :=
  if online d
  then match parse_select text with
       | Some key =>
           Some (match data d !! key with Some v => [v] | None => [] end)
       | None => foreign_query (foreign d) text (data d)
       end
  else None.

(** The values written for [key] by the statements of a journal that are
    of the forms the class means to build, oldest first. *)
Definition saves_of (key : string) (j : list stmt) : list string :=
  j ≫= λ q,
    match q with
    | InsertOrReplace rows => snd <$> filter (λ r, r.1 = key) rows
    | _ => []
    end.

(** An engine that refuses all other text. *)
Definition refusing : foreign_sql :=
  mk_foreign_sql (λ _ tbl, (false, tbl)) (λ _ _, None).

(** A string that can be pasted between quotes as it is: it holds neither
    a quote nor a NUL. *)
Fixpoint sql_plain (s : string) : bool :=
  match s with
  | EmptyString => true
  | String c s' =>
      negb (bool_decide (c = quote_char)) &&
      negb (bool_decide (c = nul_char)) && sql_plain s'
  end.

(** The text of one row, of the rows as the purge appends them to its
    stream, and of the rows of a complete statement. *)
Definition row_plain (r : key_val_pair) : bool :=
  sql_plain r.1 && sql_plain r.2.

Definition tuple_text (r : key_val_pair) : string :=
  "( '" +:+ r.1 +:+ "', '" +:+ r.2 +:+ "' )".

Fixpoint batch_text (rows : list key_val_pair) : string :=
  match rows with
  | [] => EmptyString
  | r :: rows' => tuple_text r +:+ "," +:+ batch_text rows'
  end.

Fixpoint values_text (rows : list key_val_pair) : string :=
  match rows with
  | [] => EmptyString
  | [r] => tuple_text r +:+ ";"
  | r :: rows' => tuple_text r +:+ "," +:+ values_text rows'
  end.

End Sqlite3.

Import StdList Sqlite3.

(** ** [class DataStore] *)

Record DataStore : Type := mk_DataStore {
  m_cache_list : list node;
  m_cache_map : gmap string list_itr;
  m_modification_map : gmap string bool;
  m_max_cache_size : nat;
  m_db : sqlite3
}.

Definition set_cache_list (l : list node) (s : DataStore) : DataStore :=
  mk_DataStore l (m_cache_map s) (m_modification_map s)
               (m_max_cache_size s) (m_db s).

Definition set_cache_map (m : gmap string list_itr) (s : DataStore)
  : DataStore :=
  mk_DataStore (m_cache_list s) m (m_modification_map s)
               (m_max_cache_size s) (m_db s).

Definition set_modification_map (m : gmap string bool) (s : DataStore)
  : DataStore :=
  mk_DataStore (m_cache_list s) (m_cache_map s) m
               (m_max_cache_size s) (m_db s).

Definition set_db (d : sqlite3) (s : DataStore) : DataStore :=
  mk_DataStore (m_cache_list s) (m_cache_map s) (m_modification_map s)
               (m_max_cache_size s) d.

(** The constructor; [None] stands for the [std::runtime_error] it throws
    when the database cannot be opened or the table cannot be created. *)
Definition DataStore_new (max_cache_size : nat) (db : sqlite3)
  : option DataStore :=
  if online db then
    let '(ok, db') := exec create_table_sql db in
    if ok then Some (mk_DataStore [] ∅ ∅ max_cache_size db') else None
  else None.

Definition isModified (key : string) (s : DataStore) : bool :=
  match m_modification_map s !! key with
  | Some b => b
  | None => false
  end.

Definition writeToDB (key value : string) (s : DataStore) : bool * DataStore :=
  let ss := insert_sql +:+ "( '" +:+ key +:+ "', '" +:+ value +:+ "' );" in
  let '(ok, db') := exec (c_str ss) (m_db s) in
  (ok, set_db db' s).

(** [readFromDB(key, value)]: the flag returned and the contents of the
    reference parameter [value] afterwards. The [while] loop assigns [value]
    once per row; with no row it is left as the caller passed it. *)
Definition readFromDB (key value : string) (s : DataStore) : bool * string :=
  let ss := select_sql +:+ key +:+ "' LIMIT 1;" in
  match select_value (c_str ss) (m_db s) with
  | None => (false, value)
  | Some rows => (true, foldl (λ _ row, row) value rows)
  end.

(** The eviction block of [put] (the body of its last [if]). The key is
    erased from both maps before [isModified] is asked about it. *)
Definition put_evict (s : DataStore) : DataStore :=
  match back (m_cache_list s) with
  | None => s
  | Some end_itr =>
      let s1 := set_cache_map (delete (node_key end_itr) (m_cache_map s)) s in
      let s2 :=
        set_modification_map
          (delete (node_key end_itr) (m_modification_map s1)) s1 in
      let lastElem := end_itr.2 in
      let s3 := set_cache_list (pop_back (m_cache_list s2)) s2 in
      if isModified lastElem.1 s3
      then (writeToDB lastElem.1 lastElem.2 s3).2
      else s3
  end.

(** [put] up to and including the marking of the key as modified. *)
Definition put_insert (key value : string) (s : DataStore) : DataStore :=
  let mapItr := m_cache_map s !! key in
  let l1 := push_front (key, value) (m_cache_list s) in
  let l2 := match mapItr with
            | Some it => erase it l1
            | None => l1
            end in
  let s1 := set_cache_list l2 s in
  let s2 :=
    set_cache_map (<[key := begin (m_cache_list s1)]> (m_cache_map s1)) s1 in
  set_modification_map (<[key := true]> (m_modification_map s2)) s2.

Definition put (key value : string) (s : DataStore) : DataStore :=
  let s1 := put_insert key value s in
  if decide (m_max_cache_size s1 < size (m_cache_map s1))
  then put_evict s1
  else s1.

Definition get (key : string) (s : DataStore) : string * DataStore :=
  match m_cache_map s !! key with
  | Some it =>
      let s1 := set_cache_list (splice_front it (m_cache_list s)) s in
      (default EmptyString (snd <$> deref it (m_cache_list s1)), s1)
  | None =>
      let '(success, value) := readFromDB key EmptyString s in
      if success then
        let s1 := put key value s in
        let s2 :=
          set_modification_map (<[key := false]> (m_modification_map s1)) s1 in
        match m_cache_map s2 !! key with
        | Some it =>
            (default EmptyString (snd <$> deref it (m_cache_list s2)), s2)
        | None => (EmptyString, s2)
        end
      else (EmptyString, s)
  end.

Definition isInCache (key : string) (s : DataStore) : bool :=
  bool_decide (is_Some (m_cache_map s !! key)).

Definition size (s : DataStore) : nat := size (m_cache_map s).

(** [ss.seekp(-1, std::ios_base::end); ss << c]: the last character of a
    stream that is not empty is overwritten. *)
Fixpoint overwrite_last (ss : string) (c : ascii) : string :=
  match ss with
  | EmptyString => EmptyString
  | String _ EmptyString => String c EmptyString
  | String a ss' => String a (overwrite_last ss' c)
  end.

(** The loop of [purgeToStorage]: the stream [ss] and the flag
    [dataAdded]. *)
Definition purge_text (s : DataStore) : string * bool :=
  foldl (λ (acc : string * bool) (listItr : node),
           if isModified (node_key listItr) s
           then (acc.1 +:+ "( '" +:+ listItr.2.1 +:+ "', '"
                       +:+ listItr.2.2 +:+ "' ),", true)
           else acc)
        (insert_sql, false) (m_cache_list s).

Definition purgeToStorage (s : DataStore) : bool * DataStore :=
  let '(ss, dataAdded) := purge_text s in
  let ss := overwrite_last ss ";" in
  if dataAdded then
    let '(ok, db') := exec (c_str ss) (m_db s) in
    (ok, set_db db' s)
  else (true, s).

(** The destructor: what is left is the database. *)
Definition DataStore_delete (s : DataStore) : sqlite3 :=
  match m_cache_list s with
  | [] => m_db s
  | _ :: _ => m_db (purgeToStorage s).2
  end.

(** ** Histories *)

(** What can happen to a live object: a call of one of the four public
    member functions, or the database becoming unavailable ([Fault false])
    or available again ([Fault true]). [isInCache] and [size] only read. *)
Inductive event : Type :=
| Put (key value : string)
| Get (key : string)
| IsInCache (key : string)
| Size
| Fault (up : bool).

Definition set_online (up : bool) (d : sqlite3) : sqlite3 :=
  mk_sqlite3 (data d) up (journal d) (foreign d).

Definition step (e : event) (s : DataStore) : DataStore :=
  match e with
  | Put k v => put k v s
  | Get k => (get k s).2
  | IsInCache k => s
  | Size => s
  | Fault up => set_db (set_online up (m_db s)) s
  end.

Definition run (es : list event) (s : DataStore) : DataStore :=
  foldl (λ s e, step e s) s es.

Inductive reachable : DataStore → Prop :=
| reach_new max db s : DataStore_new max db = Some s → reachable s
| reach_step e s : reachable s → reachable (step e s).

(** ** Recency by the history of use

    The specification calls a key the most, or the least, recently used by
    when it was last accessed by [put] or [get]. These definitions follow
    its words; they look at the history of calls and at which keys are
    resident, not at the order of [m_cache_list]. *)

(** The call [e] accesses key [k]. *)
Definition uses (e : event) (k : string) : bool :=
  match e with
  | Put key _ => bool_decide (key = k)
  | Get key => bool_decide (key = k)
  | _ => false
  end.

(** The time of the last access to [k] in [es], the calls being numbered
    from [S now]; [last] if there is none. *)
Fixpoint last_use_from (now last : nat) (k : string) (es : list event) : nat :=
  match es with
  | [] => last
  | e :: es' =>
      last_use_from (S now) (if uses e k then S now else last) k es'
  end.

(** The number of the last call of [es] that accessed [k]; [0] if none
    did. *)
Definition last_use (k : string) (es : list event) : nat :=
  last_use_from 0 0 k es.

(** [l] lists keys from the one used last to the one whose last use is the
    oldest. *)
Definition by_recency (es : list event) (l : list string) : Prop :=
  StronglySorted (λ k1 k2, last_use k2 es < last_use k1 es) l.

(** After history [es], [k] is resident in [s] and every other resident key
    was last used before it. *)
Definition most_recently_used (es : list event) (k : string) (s : DataStore)
  : Prop :=
  isInCache k s = true ∧
  ∀ k', isInCache k' s = true → k' ≠ k → last_use k' es < last_use k es.

(** After history [es], [k] is resident in [s] and every other resident key
    was last used after it. *)
Definition least_recently_used (es : list event) (k : string) (s : DataStore)
  : Prop :=
  isInCache k s = true ∧
  ∀ k', isInCache k' s = true → k' ≠ k → last_use k es < last_use k' es.

(** From [s] to [s'] the key [k], and no other, stops being resident. *)
Definition evicts (k : string) (s s' : DataStore) : Prop :=
  isInCache k s = true ∧ isInCache k s' = false ∧
  ∀ k', k' ≠ k → isInCache k' s' = isInCache k' s.

(** The call [e] accesses [k] and no other key. *)
Definition touches (e : event) (k : string) : Prop :=
  uses e k = true ∧ ∀ k', k' ≠ k → uses e k' = false.

(** ** Scenarios *)

(** An empty, reachable database file, and the object the constructor
    builds on it. *)
Definition db0 : sqlite3 := mk_sqlite3 ∅ true [] refusing.

Definition store (max_cache_size : nat) : DataStore :=
  mk_DataStore [] ∅ ∅ max_cache_size
               (mk_sqlite3 ∅ true [CreateTable] refusing).

(** A database file that already holds a row, and the object built on it. *)
Definition db1 : sqlite3 := mk_sqlite3 {["2" := "two"]} true [] refusing.

Definition store1 (max_cache_size : nat) : DataStore :=
  mk_DataStore [] ∅ ∅ max_cache_size
               (mk_sqlite3 {["2" := "two"]} true [CreateTable] refusing).




(** The key of the most recently used entry. *)
Definition front_key (s : DataStore) : option string :=
  node_key <$> head (m_cache_list s).

(** The resident entries, most recently used first, and those of them the
    modification map marks as modified. *)
Definition entries (s : DataStore) : list key_val_pair :=
  snd <$> m_cache_list s.

Definition dirty_entries (s : DataStore) : list key_val_pair :=
  filter (λ e, isModified e.1 s = true) (entries s).

(** ** The representation invariant *)

(** The map an index of the list must be: each key to the node holding it. *)
Definition index (l : list node) : gmap string list_itr :=
  list_to_map ((λ n, (node_key n, n.1)) <$> l).

(** The recency list and the key index agree: nodes have distinct
    identities, keys are listed once, and the index maps each listed key to
    its node. *)
Record linked (s : DataStore) : Prop := mk_linked {
  linked_itrs : NoDup (itrs (m_cache_list s));
  linked_keys : NoDup (keys (m_cache_list s));
  linked_index : m_cache_map s = index (m_cache_list s)
}.

Record wf (s : DataStore) : Prop := mk_wf {
  wf_linked : linked s;
  wf_bound : size s ≤ m_max_cache_size s
}.

(** Every key the modification map marks as modified is resident. *)
Definition modified_resident (s : DataStore) : Prop :=
  ∀ k, isModified k s = true → isInCache k s = true.

(** ** The tests of [tests/TestDataStore.cpp] *)

(** What a test body leaves: the outcome of each check it executed, in
    order, and the database once its [DataStore] has gone out of scope.
    [ASSERT_EQ] makes the test function return at its first failure,
    [EXPECT_EQ] records the failure and goes on; either way the destructor
    of the local [DataStore] runs. *)
Definition test_result : Type := list bool * sqlite3.

Definition ASSERT_EQ (ok : bool) (ds : DataStore) (log : list bool)
    (rest : list bool → test_result) : test_result :=
  if ok then rest (log ++ [true]) else (log ++ [false], DataStore_delete ds).

Definition EXPECT_EQ (ok : bool) (log : list bool)
    (rest : list bool → test_result) : test_result :=
  rest (log ++ [ok]).

(** Each test takes the database file it opens; [None] is the exception of
    the constructor. *)
Definition TestPut (db : sqlite3) : option test_result :=
  ds ← DataStore_new 3 db;
  Some (
    let ds := put "1" "one" ds in
    ASSERT_EQ (bool_decide (isInCache "1" ds = true)) ds [] (λ log,
    ASSERT_EQ (bool_decide (size ds = 1)) ds log (λ log,
    let ds := put "2" "two" ds in
    ASSERT_EQ (bool_decide (isInCache "2" ds = true)) ds log (λ log,
    ASSERT_EQ (bool_decide (size ds = 2)) ds log (λ log,
    let ds := put "3" "three" ds in
    ASSERT_EQ (bool_decide (isInCache "3" ds = true)) ds log (λ log,
    ASSERT_EQ (bool_decide (size ds = 3)) ds log (λ log,
    (log, DataStore_delete ds)))))))).

Definition TestPutUpdate (db : sqlite3) : option test_result :=
  ds ← DataStore_new 1 db;
  Some (
    let ds := put "1" "one" ds in
    ASSERT_EQ (bool_decide (size ds = 1)) ds [] (λ log,
    ASSERT_EQ (bool_decide (isInCache "1" ds = true)) ds log (λ log,
    let r := get "1" ds in
    let ds := r.2 in
    EXPECT_EQ (bool_decide (r.1 = "one")) log (λ log,
    let ds := put "1" "numberone" ds in
    ASSERT_EQ (bool_decide (size ds = 1)) ds log (λ log,
    ASSERT_EQ (bool_decide (isInCache "1" ds = true)) ds log (λ log,
    let r := get "1" ds in
    let ds := r.2 in
    EXPECT_EQ (bool_decide (r.1 = "numberone")) log (λ log,
    (log, DataStore_delete ds)))))))).

Definition TestMaxCacheSize (db : sqlite3) : option test_result :=
  ds ← DataStore_new 1 db;
  Some (
    let ds := put "1" "one" ds in
    EXPECT_EQ (bool_decide (size ds = 1)) [] (λ log,
    let ds := put "2" "two" ds in
    EXPECT_EQ (bool_decide (size ds = 1)) log (λ log,
    ASSERT_EQ (bool_decide (isInCache "1" ds = false)) ds log (λ log,
    let r := get "1" ds in
    let ds := r.2 in
    EXPECT_EQ (bool_decide (r.1 = "one")) log (λ log,
    EXPECT_EQ (bool_decide (isInCache "2" ds = false)) log (λ log,
    (log, DataStore_delete ds))))))).

(** * Facts about the containers *)

Section list_facts.
Implicit Types (l : list node) (n : node) (it : list_itr) (k : string).

Lemma fresh_not_in l : fresh l ∉ itrs l.
Proof.
  unfold fresh. intros Hin%max_list_elem_of_le. lia.
Qed.

Lemma keys_index_fst l : ((λ n, (node_key n, n.1)) <$> l).*1 = keys l.
Proof. unfold keys. rewrite <- list_fmap_compose. done. Qed.

Lemma index_cons n l : index (n :: l) = <[node_key n := n.1]> (index l).
Proof. done. Qed.

Lemma index_perm l l' : NoDup (keys l) → l ≡ₚ l' → index l = index l'.
Proof.
  intros Hnd Hp. unfold index. apply list_to_map_proper.
  - by rewrite keys_index_fst.
  - by rewrite Hp.
Qed.

Lemma index_None l k : index l !! k = None ↔ k ∉ keys l.
Proof.
  unfold index. rewrite <- not_elem_of_list_to_map. by rewrite keys_index_fst.
Qed.

Lemma index_Some_elem l k it :
  index l !! k = Some it → ∃ v, (it, (k, v)) ∈ l.
Proof.
  unfold index. intros H%elem_of_list_to_map_2.
  apply list_elem_of_fmap in H as ([it' [k' v]] & Heq & Hin).
  unfold node_key in Heq. simpl in Heq. simplify_eq. eauto.
Qed.

Lemma index_elem_Some l k it v :
  NoDup (keys l) → (it, (k, v)) ∈ l → index l !! k = Some it.
Proof.
  intros Hnd Hin. unfold index. apply elem_of_list_to_map_1.
  - by rewrite keys_index_fst.
  - apply list_elem_of_fmap. by exists (it, (k, v)).
Qed.

Lemma size_index l : NoDup (keys l) → base.size (index l) = length l.
Proof.
  intros Hnd. unfold index. rewrite map_size_list_to_map.
  - by rewrite length_fmap.
  - by rewrite keys_index_fst.
Qed.

Lemma find_node_Some l it n :
  NoDup (itrs l) → n ∈ l → n.1 = it → find_node it l = Some n.
Proof.
  induction l as [|m l IH]; intros Hnd Hin Hit; [by apply elem_of_nil in Hin|].
  simpl. unfold itrs in Hnd. rewrite fmap_cons in Hnd.
  apply NoDup_cons in Hnd as [Hm Hnd].
  apply elem_of_cons in Hin as [->|Hin].
  - by rewrite decide_True.
  - rewrite decide_False; [by apply IH|].
    intros Heq. apply Hm. rewrite Heq, <- Hit. by apply list_elem_of_fmap_2.
Qed.

Lemma find_node_elem l it n : find_node it l = Some n → n ∈ l ∧ n.1 = it.
Proof.
  induction l as [|m l IH]; simpl; [done|].
  case_decide.
  - intros [= ->]. split; [left|done].
  - intros [Hin ?]%IH. split; [by right|done].
Qed.

Lemma erase_cons_ne n l it : n.1 ≠ it → erase it (n :: l) = n :: erase it l.
Proof. intros Hne. unfold erase. by rewrite filter_cons_True. Qed.

Lemma erase_cons_eq n l : erase n.1 (n :: l) = erase n.1 l.
Proof. unfold erase. rewrite filter_cons_False; [done|]. by intros Hne. Qed.

Lemma erase_absent l it : it ∉ itrs l → erase it l = l.
Proof.
  induction l as [|m l IH]; [done|]. unfold itrs. rewrite fmap_cons.
  intros [Hm Hl]%not_elem_of_cons.
  rewrite erase_cons_ne by (simpl in Hm; congruence).
  f_equal. by apply IH.
Qed.

(** Unlinking a node leaves the others in place. *)
Lemma erase_perm l n : NoDup (itrs l) → n ∈ l → l ≡ₚ n :: erase n.1 l.
Proof.
  induction l as [|m l IH]; intros Hnd Hin; [by apply elem_of_nil in Hin|].
  unfold itrs in Hnd. rewrite fmap_cons in Hnd.
  apply NoDup_cons in Hnd as [Hm Hnd].
  apply elem_of_cons in Hin as [->|Hin].
  - by rewrite erase_cons_eq, (erase_absent l m.1 Hm).
  - rewrite erase_cons_ne.
    + rewrite (IH Hnd Hin) at 1. apply Permutation_swap.
    + intros Heq. apply Hm. rewrite Heq. by apply list_elem_of_fmap_2.
Qed.

Lemma pop_back_perm l n : back l = Some n → l ≡ₚ n :: pop_back l.
Proof.
  unfold back, pop_back. intros [l' ->]%last_Some.
  rewrite removelast_last. by rewrite Permutation_app_comm.
Qed.

Lemma pop_back_snoc l n : back l = Some n → l = pop_back l ++ [n].
Proof.
  unfold back, pop_back. intros [l' ->]%last_Some. by rewrite removelast_last.
Qed.

Lemma pop_back_cons n l : l ≠ [] → pop_back (n :: l) = n :: pop_back l.
Proof. by destruct l. Qed.

Lemma keys_perm l l' : l ≡ₚ l' → keys l ≡ₚ keys l'.
Proof. unfold keys. by intros ->. Qed.

Lemma itrs_perm l l' : l ≡ₚ l' → itrs l ≡ₚ itrs l'.
Proof. unfold itrs. by intros ->. Qed.

(** What is left once node [n] is taken out of a duplicate-free list. *)
Lemma remove_node l l' n :
  NoDup (itrs l) → NoDup (keys l) → l ≡ₚ n :: l' →
  NoDup (itrs l') ∧ NoDup (keys l') ∧
  (n.1 ∉ itrs l') ∧ (node_key n ∉ keys l') ∧
  index l' = delete (node_key n) (index l).
Proof.
  intros Hi Hk Hp.
  pose proof (itrs_perm _ _ Hp) as Hpi. pose proof (keys_perm _ _ Hp) as Hpk.
  rewrite Hpi in Hi. rewrite Hpk in Hk.
  unfold itrs in Hi. unfold keys in Hk.
  rewrite fmap_cons in Hi. rewrite fmap_cons in Hk.
  apply NoDup_cons in Hi as [Hi1 Hi2]. apply NoDup_cons in Hk as [Hk1 Hk2].
  repeat split; try done.
  rewrite (index_perm l (n :: l')); [|by rewrite Hpk; apply NoDup_cons|done].
  rewrite index_cons, delete_insert_eq. symmetry. apply delete_id.
  by apply index_None.
Qed.

Lemma splice_front_perm l it : NoDup (itrs l) → splice_front it l ≡ₚ l.
Proof.
  intros Hnd. unfold splice_front.
  destruct (find_node it l) as [n|] eqn:Hf; [|done].
  apply find_node_elem in Hf as [Hin <-]. symmetry. by apply erase_perm.
Qed.

End list_facts.

(** * The SQL text of plain strings *)

Section sql_text.
Implicit Types (s t p rest k v : string) (c : ascii) (r : key_val_pair)
  (rows : list key_val_pair).

Lemma str_app_cons c s t : String c s +:+ t = String c (s +:+ t).
Proof. done. Qed.

Lemma str_app_nil_l s : EmptyString +:+ s = s.
Proof. done. Qed.

Lemma str_app_assoc s t p : (s +:+ t) +:+ p = s +:+ (t +:+ p).
Proof.
  induction s as [|c s IH]; [done|]. rewrite !str_app_cons. by rewrite IH.
Qed.

Lemma str_app_nil_r s : s +:+ EmptyString = s.
Proof.
  induction s as [|c s IH]; [done|]. rewrite str_app_cons. by rewrite IH.
Qed.

Lemma str_length_app s t :
  String.length (s +:+ t) = String.length s + String.length t.
Proof.
  induction s as [|c s IH]; [done|]. rewrite str_app_cons. simpl.
  by rewrite IH.
Qed.

Lemma sql_plain_cons c s :
  sql_plain (String c s) = true ↔
  c ≠ quote_char ∧ c ≠ nul_char ∧ sql_plain s = true.
Proof.
  simpl. rewrite !andb_true_iff, !negb_true_iff, !bool_decide_eq_false.
  tauto.
Qed.

Lemma c_str_plain s : sql_plain s = true → c_str s = s.
Proof.
  induction s as [|c s IH]; [done|].
  intros (_ & Hn & Hs)%sql_plain_cons. simpl.
  rewrite decide_False by done. by rewrite IH.
Qed.

(** A text whose first part has no NUL is cut in what follows it. *)
Lemma c_str_app s t : c_str s = s → c_str (s +:+ t) = s +:+ c_str t.
Proof.
  induction s as [|c s IH]; [done|]. rewrite !str_app_cons. simpl.
  case_decide; [done|]. intros [= Hs]. by rewrite IH.
Qed.

Lemma drop_prefix_app p s : drop_prefix p (p +:+ s) = Some s.
Proof.
  induction p as [|c p IH]; [done|]. rewrite str_app_cons. simpl.
  by rewrite decide_True.
Qed.

(** A plain string between quotes is read back as it is, provided another
    quote does not follow the closing one. *)
Lemma scan_literal_plain s rest :
  sql_plain s = true →
  (∀ c rest', rest = String c rest' → c ≠ quote_char) →
  scan_literal (s +:+ String quote_char rest) = Some (s, rest).
Proof.
  intros Hs Hrest. induction s as [|c s IH].
  - rewrite str_app_nil_l. cbn [scan_literal].
    destruct (decide (quote_char = quote_char)); [|done].
    destruct rest as [|c' rest']; [done|].
    by rewrite decide_False by by apply (Hrest c' rest').
  - apply sql_plain_cons in Hs as (Hq & _ & Hs). rewrite str_app_cons.
    cbn [scan_literal]. rewrite decide_False by done. by rewrite IH.
Qed.

Lemma row_plain_pair r :
  row_plain r = true ↔ sql_plain r.1 = true ∧ sql_plain r.2 = true.
Proof. unfold row_plain. by rewrite andb_true_iff. Qed.

Lemma tuple_text_app r rest :
  tuple_text r +:+ rest
  = "( '" +:+ r.1 +:+ String quote_char (", '" +:+ r.2
          +:+ String quote_char (" )" +:+ rest)).
Proof.
  unfold tuple_text. rewrite !str_app_assoc.
  by rewrite ?str_app_cons, ?str_app_nil_l.
Qed.

Lemma parse_tuple_text r rest :
  row_plain r = true → parse_tuple (tuple_text r +:+ rest) = Some (r, rest).
Proof.
  intros [Hk Hv]%row_plain_pair. rewrite tuple_text_app.
  unfold parse_tuple.
  rewrite (drop_prefix_app "( '"). cbn [mbind option_bind].
  rewrite (scan_literal_plain r.1) by (done || by intros ?? [= <- _]).
  cbn [mbind option_bind fst snd].
  rewrite (drop_prefix_app ", '"). cbn [mbind option_bind].
  rewrite (scan_literal_plain r.2) by (done || by intros ?? [= <- _]).
  cbn [mbind option_bind fst snd].
  rewrite (drop_prefix_app " )"). cbn [mbind option_bind].
  by destruct r.
Qed.

Lemma c_str_tuple_text r rest :
  row_plain r = true →
  c_str (tuple_text r +:+ rest) = tuple_text r +:+ c_str rest.
Proof.
  intros [Hk Hv]%row_plain_pair. unfold tuple_text.
  rewrite !str_app_assoc.
  rewrite (c_str_app "( '") by done.
  rewrite (c_str_app r.1) by by apply c_str_plain.
  rewrite (c_str_app "', '") by done.
  rewrite (c_str_app r.2) by by apply c_str_plain.
  by rewrite (c_str_app "' )") by done.
Qed.

Lemma values_text_cons r r' rows :
  values_text (r :: r' :: rows)
  = tuple_text r +:+ "," +:+ values_text (r' :: rows).
Proof. done. Qed.

Lemma c_str_values_text rows :
  Forall (λ r, row_plain r = true) rows →
  c_str (values_text rows) = values_text rows.
Proof.
  induction 1 as [|r rows Hr Hrows IH]; [done|].
  destruct rows as [|r' rows].
  - cbn [values_text]. by rewrite c_str_tuple_text.
  - rewrite values_text_cons, c_str_tuple_text by done.
    by rewrite (c_str_app ","), IH by done.
Qed.

Lemma parse_tuples_values_text fuel rows :
  Forall (λ r, row_plain r = true) rows → rows ≠ [] →
  length rows ≤ fuel →
  parse_tuples fuel (values_text rows) = Some rows.
Proof.
  intros Hrows. revert fuel.
  induction Hrows as [|r rows Hr Hrows IH]; intros fuel Hne Hlen; [done|].
  destruct fuel as [|fuel]; [simpl in Hlen; lia|].
  destruct rows as [|r' rows].
  - cbn [values_text parse_tuples]. rewrite parse_tuple_text by done.
    cbn [mbind option_bind fst snd]. by rewrite decide_True by done.
  - rewrite values_text_cons.
    cbn [parse_tuples]. rewrite parse_tuple_text by done.
    cbn [mbind option_bind fst snd].
    rewrite decide_False by (by rewrite str_app_cons).
    rewrite (drop_prefix_app ","). cbn [mbind option_bind].
    rewrite IH; [done|done|]. simpl in Hlen |- *. lia.
Qed.

Lemma length_values_text rows : length rows ≤ String.length (values_text rows).
Proof.
  induction rows as [|r rows IH]; [done|].
  destruct rows as [|r' rows].
  - cbn [values_text]. rewrite str_length_app. simpl. lia.
  - rewrite values_text_cons, !str_length_app. simpl in *. lia.
Qed.

(** The statement the purge builds from plain rows is read as those
    rows. *)
Lemma parse_stmt_values_text rows :
  Forall (λ r, row_plain r = true) rows → rows ≠ [] →
  parse_stmt (c_str (insert_sql +:+ values_text rows)) = InsertOrReplace rows.
Proof.
  intros Hrows Hne. rewrite (c_str_app insert_sql) by done.
  rewrite c_str_values_text by done. unfold parse_stmt.
  rewrite decide_False by (by unfold insert_sql; rewrite str_app_cons).
  rewrite drop_prefix_app, parse_tuples_values_text; [done..|].
  rewrite str_length_app. pose proof (length_values_text rows). lia.
Qed.

Lemma overwrite_last_snoc s c c' :
  overwrite_last (s +:+ String c EmptyString) c' = s +:+ String c' EmptyString.
Proof.
  induction s as [|a s IH]; [done|]. rewrite !str_app_cons.
  destruct s as [|b s]; [done|]. rewrite str_app_cons in IH |- *.
  cbn [overwrite_last] in IH |- *. by rewrite IH.
Qed.

(** Overwriting the comma that ends the stream of the purge. *)
Lemma overwrite_batch_text p rows :
  rows ≠ [] →
  overwrite_last (p +:+ batch_text rows) ";" = p +:+ values_text rows.
Proof.
  revert p. induction rows as [|r rows IH]; intros p Hne; [done|].
  destruct rows as [|r' rows].
  - cbn [batch_text values_text]. rewrite str_app_nil_r, <- !str_app_assoc.
    by rewrite (overwrite_last_snoc _ "," ";").
  - rewrite values_text_cons.
    change (batch_text (r :: r' :: rows))
      with (tuple_text r +:+ "," +:+ batch_text (r' :: rows)).
    rewrite <- !str_app_assoc. by rewrite IH.
Qed.

(** The query built for a plain key asks for that key. *)
Lemma parse_select_plain k :
  sql_plain k = true →
  parse_select (c_str (select_sql +:+ k +:+ "' LIMIT 1;")) = Some k.
Proof.
  intros Hk. rewrite (c_str_app select_sql) by done.
  rewrite (c_str_app k) by by apply c_str_plain.
  change (c_str "' LIMIT 1;") with (String quote_char " LIMIT 1;").
  unfold parse_select. rewrite drop_prefix_app. cbn [mbind option_bind].
  rewrite scan_literal_plain by (done || by intros ?? [= <- _]).
  cbn [mbind option_bind fst snd]. by rewrite decide_True.
Qed.

End sql_text.

(** * The constructor *)

Section constructor.

(** What the constructor builds on a database that can be opened. *)
Lemma new_online max db :
  online db = true →
  DataStore_new max db
  = Some (mk_DataStore [] ∅ ∅ max
            (mk_sqlite3 (data db) true (journal db ++ [CreateTable])
                        (foreign db))).
Proof.
  intros Hon. unfold DataStore_new, exec, exec_stmt. by rewrite Hon.
Qed.

Lemma new_inv max db s :
  DataStore_new max db = Some s →
  online db = true ∧
  s = mk_DataStore [] ∅ ∅ max
        (mk_sqlite3 (data db) true (journal db ++ [CreateTable])
                    (foreign db)).
Proof.
  destruct (online db) eqn:Hon.
  - rewrite (new_online max db Hon). by intros [= <-].
  - unfold DataStore_new. by rewrite Hon.
Qed.

End constructor.

(** * The representation invariant holds in every reachable state *)

Section invariant.
Implicit Types (s : DataStore) (k v key value : string).

Lemma linked_size s : linked s → size s = length (m_cache_list s).
Proof.
  intros [_ Hk Hm]. unfold size. rewrite Hm. by apply size_index.
Qed.

Lemma linked_ext s s' :
  m_cache_list s' ≡ₚ m_cache_list s → m_cache_map s' = m_cache_map s →
  linked s → linked s'.
Proof.
  intros Hl Hm [Hi Hk Hidx]. split.
  - by rewrite (itrs_perm _ _ Hl).
  - by rewrite (keys_perm _ _ Hl).
  - rewrite Hm, Hidx. symmetry. apply index_perm; [|done].
    by rewrite (keys_perm _ _ Hl).
Qed.

(** The node the index holds for a resident key. *)
Lemma linked_lookup s k it :
  linked s → m_cache_map s !! k = Some it →
  ∃ v, (it, (k, v)) ∈ m_cache_list s ∧
       find_node it (m_cache_list s) = Some (it, (k, v)).
Proof.
  intros [Hi Hk Hidx] Hm. rewrite Hidx in Hm.
  apply index_Some_elem in Hm as [v Hin]. exists v. split; [done|].
  by apply find_node_Some.
Qed.

Lemma put_insert_list_hit s k v it :
  linked s → m_cache_map s !! k = Some it →
  m_cache_list (put_insert k v s)
  = (fresh (m_cache_list s), (k, v)) :: erase it (m_cache_list s).
Proof.
  intros Hl Hm. unfold put_insert. rewrite Hm. simpl.
  unfold push_front. apply erase_cons_ne. simpl. intros Heq.
  destruct (linked_lookup s k it Hl Hm) as (v0 & Hin & _).
  apply (fresh_not_in (m_cache_list s)). rewrite Heq.
  by apply (list_elem_of_fmap_2 fst) in Hin.
Qed.

Lemma put_insert_list_miss s k v :
  m_cache_map s !! k = None →
  m_cache_list (put_insert k v s)
  = (fresh (m_cache_list s), (k, v)) :: m_cache_list s.
Proof. intros Hm. unfold put_insert. by rewrite Hm. Qed.

Lemma put_insert_map s k v :
  m_cache_map (put_insert k v s)
  = <[k := begin (m_cache_list (put_insert k v s))]> (m_cache_map s).
Proof. done. Qed.

Lemma put_insert_linked s k v : linked s → linked (put_insert k v s).
Proof.
  intros Hl. pose proof Hl as [Hi Hk Hidx].
  destruct (m_cache_map s !! k) as [it|] eqn:Hm.
  - destruct (linked_lookup s k it Hl Hm) as (v0 & Hin & _).
    pose proof (erase_perm _ _ Hi Hin) as Hp. simpl in Hp.
    destruct (remove_node _ _ _ Hi Hk Hp) as (Hi' & Hk' & _ & Hk0 & Hidx').
    split; rewrite ?put_insert_map, (put_insert_list_hit s k v it Hl Hm).
    + unfold itrs. rewrite fmap_cons. apply NoDup_cons. split; [|done].
      simpl. intros Hf. apply (fresh_not_in (m_cache_list s)).
      rewrite (itrs_perm _ _ Hp). unfold itrs at 1. rewrite fmap_cons. by right.
    + unfold keys. rewrite fmap_cons. by apply NoDup_cons.
    + rewrite index_cons, Hidx'. simpl. unfold node_key. simpl.
      by rewrite insert_delete_eq, Hidx.
  - split; rewrite ?put_insert_map, (put_insert_list_miss s k v Hm).
    + unfold itrs. rewrite fmap_cons. apply NoDup_cons. split; [|done].
      apply fresh_not_in.
    + unfold keys. rewrite fmap_cons. apply NoDup_cons. split; [|done].
      apply index_None. by rewrite <- Hidx.
    + rewrite index_cons. simpl. unfold node_key. simpl. by rewrite Hidx.
Qed.

Lemma put_insert_size s k v :
  size (put_insert k v s)
  = if isInCache k s then size s else S (size s).
Proof.
  unfold size, isInCache. rewrite put_insert_map.
  destruct (m_cache_map s !! k) as [it|] eqn:Hm.
  - rewrite bool_decide_eq_true_2 by eauto.
    by apply map_size_insert_Some.
  - rewrite bool_decide_eq_false_2 by (by intros [? ?]).
    by apply map_size_insert_None.
Qed.

Lemma put_insert_max s k v :
  m_max_cache_size (put_insert k v s) = m_max_cache_size s.
Proof. done. Qed.

Lemma put_insert_db s k v : m_db (put_insert k v s) = m_db s.
Proof. done. Qed.

(** The eviction block never reaches [writeToDB]: by the time it asks
    [isModified], the key has been erased from the modification map. *)
Lemma put_evict_eq s n :
  back (m_cache_list s) = Some n →
  put_evict s
  = mk_DataStore (pop_back (m_cache_list s))
                 (delete (node_key n) (m_cache_map s))
                 (delete (node_key n) (m_modification_map s))
                 (m_max_cache_size s) (m_db s).
Proof.
  intros Hb. unfold put_evict. rewrite Hb. cbn.
  unfold isModified. cbn. fold (node_key n).
  by rewrite lookup_delete_eq.
Qed.

Lemma put_evict_db s : m_db (put_evict s) = m_db s.
Proof.
  destruct (back (m_cache_list s)) as [n|] eqn:Hb.
  - by rewrite (put_evict_eq s n Hb).
  - unfold put_evict. by rewrite Hb.
Qed.

Lemma put_evict_max s : m_max_cache_size (put_evict s) = m_max_cache_size s.
Proof.
  destruct (back (m_cache_list s)) as [n|] eqn:Hb.
  - by rewrite (put_evict_eq s n Hb).
  - unfold put_evict. by rewrite Hb.
Qed.

Lemma put_evict_linked s n :
  linked s → back (m_cache_list s) = Some n →
  linked (put_evict s) ∧ S (size (put_evict s)) = size s.
Proof.
  intros Hl Hb. pose proof Hl as [Hi Hk Hidx].
  pose proof (pop_back_perm _ _ Hb) as Hp.
  destruct (remove_node _ _ _ Hi Hk Hp) as (Hi' & Hk' & _ & _ & Hidx').
  assert (linked (put_evict s)) as Hl'.
  { rewrite (put_evict_eq s n Hb). split; simpl; [done..|].
    by rewrite Hidx', Hidx. }
  split; [done|].
  rewrite (linked_size _ Hl'), (linked_size _ Hl), (put_evict_eq s n Hb). simpl.
  by rewrite (Permutation_length Hp).
Qed.

Lemma put_db s k v : m_db (put k v s) = m_db s.
Proof.
  unfold put. case_decide; [|done]. by rewrite put_evict_db.
Qed.

Lemma put_max s k v : m_max_cache_size (put k v s) = m_max_cache_size s.
Proof.
  unfold put. case_decide; [|done]. by rewrite put_evict_max.
Qed.

(** After the insertion the list is not empty, so the eviction block
    always finds a last element. *)
Lemma put_insert_back s k v :
  linked s → ∃ n, back (m_cache_list (put_insert k v s)) = Some n.
Proof.
  intros Hl. apply last_is_Some.
  destruct (m_cache_map s !! k) as [it|] eqn:Hm.
  - by rewrite (put_insert_list_hit s k v it Hl Hm).
  - by rewrite (put_insert_list_miss s k v Hm).
Qed.

Lemma wf_put s k v : wf s → wf (put k v s).
Proof.
  intros [Hl Hb]. pose proof (put_insert_linked s k v Hl) as Hl1.
  pose proof (put_insert_size s k v) as Hsz.
  unfold put. case_decide as Hgt.
  - destruct (put_insert_back s k v Hl) as [n Hn].
    destruct (put_evict_linked _ n Hl1 Hn) as [Hl2 Hsz2].
    split; [done|]. rewrite put_evict_max, put_insert_max.
    fold (size (put_insert k v s)) in Hgt.
    destruct (isInCache k s); lia.
  - split; [done|]. fold (size (put_insert k v s)) in Hgt. lia.
Qed.

Lemma get_hit s k it :
  m_cache_map s !! k = Some it →
  get k s
  = (default EmptyString (snd <$> deref it (splice_front it (m_cache_list s))),
     set_cache_list (splice_front it (m_cache_list s)) s).
Proof. intros Hm. unfold get. by rewrite Hm. Qed.

Lemma wf_set_modification_map s m : wf s → wf (set_modification_map m s).
Proof. intros [[Hi Hk Hidx] Hb]. by repeat split. Qed.

Lemma wf_set_db s d : wf s → wf (set_db d s).
Proof. intros [[Hi Hk Hidx] Hb]. by repeat split. Qed.

Lemma wf_get s k : wf s → wf (get k s).2.
Proof.
  intros Hwf. pose proof Hwf as [Hl Hb].
  destruct (m_cache_map s !! k) as [it|] eqn:Hm.
  - rewrite (get_hit s k it Hm). simpl. split; [|done].
    apply (linked_ext s); [|done..]. simpl.
    apply splice_front_perm, Hl.
  - unfold get. rewrite Hm.
    destruct (readFromDB k EmptyString s) as [[] value]; [|done].
    set (s2 := set_modification_map _ _).
    assert (wf s2) by by apply wf_set_modification_map, wf_put.
    by destruct (m_cache_map s2 !! k).
Qed.

Lemma wf_new max db s : DataStore_new max db = Some s → wf s.
Proof.
  unfold DataStore_new. destruct (online db); [|done].
  destruct (exec create_table_sql db) as [[] db']; [|done].
  intros [= <-]. repeat split; simpl; try apply NoDup_nil_2.
  unfold size. simpl. rewrite map_size_empty. lia.
Qed.

Lemma wf_step e s : wf s → wf (step e s).
Proof.
  destruct e; simpl; auto using wf_put, wf_get, wf_set_db.
Qed.

Lemma reachable_wf s : reachable s → wf s.
Proof.
  induction 1; eauto using wf_new, wf_step.
Qed.

Lemma reachable_run es s : reachable s → reachable (run es s).
Proof.
  revert s. induction es as [|e es IH]; intros s Hr; [done|].
  simpl. apply IH. by constructor.
Qed.

End invariant.

(** * What the member functions leave alone *)

Section frame.
Implicit Types (s : DataStore) (k v : string) (e : event) (es : list event).

(** The fields of the state after a miss whose load succeeded. *)
Lemma get_miss s k value :
  m_cache_map s !! k = None → readFromDB k EmptyString s = (true, value) →
  (get k s).2
  = set_modification_map (<[k := false]> (m_modification_map (put k value s)))
                         (put k value s).
Proof.
  intros Hm Hr. unfold get. rewrite Hm, Hr.
  by destruct (m_cache_map (set_modification_map _ _) !! k).
Qed.

(** A miss whose load fails changes nothing. *)
Lemma get_load_error s k :
  m_cache_map s !! k = None → online (m_db s) = false →
  get k s = (EmptyString, s).
Proof.
  intros Hm Hoff. unfold get, readFromDB, select_value. by rewrite Hm, Hoff.
Qed.

Lemma get_load_failed s k value :
  m_cache_map s !! k = None → readFromDB k EmptyString s = (false, value) →
  get k s = (EmptyString, s).
Proof. intros Hm Hr. unfold get. by rewrite Hm, Hr. Qed.

Lemma get_max s k : m_max_cache_size (get k s).2 = m_max_cache_size s.
Proof.
  destruct (m_cache_map s !! k) as [it|] eqn:Hm.
  - by rewrite (get_hit s k it Hm).
  - destruct (readFromDB k EmptyString s) as [[] value] eqn:Hr.
    + rewrite (get_miss s k value Hm Hr). simpl. apply put_max.
    + unfold get. by rewrite Hm, Hr.
Qed.

(** Neither [put] nor [get] ever changes the database. *)
Lemma get_db s k : m_db (get k s).2 = m_db s.
Proof.
  destruct (m_cache_map s !! k) as [it|] eqn:Hm.
  - by rewrite (get_hit s k it Hm).
  - destruct (readFromDB k EmptyString s) as [[] value] eqn:Hr.
    + rewrite (get_miss s k value Hm Hr). simpl. apply put_db.
    + unfold get. by rewrite Hm, Hr.
Qed.

Lemma step_max e s : m_max_cache_size (step e s) = m_max_cache_size s.
Proof. destruct e; simpl; auto using put_max, get_max. Qed.

Lemma run_max es s : m_max_cache_size (run es s) = m_max_cache_size s.
Proof.
  revert s. induction es as [|e es IH]; intros s; [done|].
  simpl. by rewrite IH, step_max.
Qed.

Lemma step_journal e s : journal (m_db (step e s)) = journal (m_db s).
Proof. destruct e; simpl; by rewrite ?put_db, ?get_db. Qed.

Lemma run_journal es s : journal (m_db (run es s)) = journal (m_db s).
Proof.
  revert s. induction es as [|e es IH]; intros s; [done|].
  simpl. by rewrite IH, step_journal.
Qed.

Lemma step_data e s : data (m_db (step e s)) = data (m_db s).
Proof. destruct e; simpl; by rewrite ?put_db, ?get_db. Qed.

Lemma run_data es s : data (m_db (run es s)) = data (m_db s).
Proof.
  revert s. induction es as [|e es IH]; intros s; [done|].
  simpl. by rewrite IH, step_data.
Qed.

Lemma new_max max db s :
  DataStore_new max db = Some s → m_max_cache_size s = max.
Proof.
  by intros [_ ->]%new_inv.
Qed.

End frame.

(** * The three ways a [put] can go *)

Section put_cases.
Implicit Types (s : DataStore) (k v : string) (it : list_itr).

(** The key is resident: its node is replaced, nothing is evicted. *)
Lemma put_hit s k v it :
  wf s → m_cache_map s !! k = Some it → put k v s = put_insert k v s.
Proof.
  intros [_ Hb] Hm. unfold put. rewrite decide_False; [done|].
  fold (size (put_insert k v s)). rewrite put_insert_size.
  unfold isInCache. rewrite bool_decide_eq_true_2 by eauto.
  rewrite put_insert_max. lia.
Qed.

Lemma put_insert_size_miss s k v :
  m_cache_map s !! k = None → size (put_insert k v s) = S (size s).
Proof.
  intros Hm. rewrite put_insert_size. unfold isInCache.
  by rewrite bool_decide_eq_false_2 by (rewrite Hm; by intros [? ?]).
Qed.

(** The key is new and there is room. *)
Lemma put_room s k v :
  m_cache_map s !! k = None → size s < m_max_cache_size s →
  put k v s = put_insert k v s.
Proof.
  intros Hm Hlt. unfold put. rewrite decide_False; [done|].
  fold (size (put_insert k v s)).
  rewrite (put_insert_size_miss s k v Hm), put_insert_max. lia.
Qed.

(** The key is new and the cache is full: the eviction block runs. *)
Lemma put_full s k v :
  m_cache_map s !! k = None → m_max_cache_size s ≤ size s →
  put k v s = put_evict (put_insert k v s).
Proof.
  intros Hm Hle. unfold put. rewrite decide_True; [done|].
  fold (size (put_insert k v s)).
  rewrite (put_insert_size_miss s k v Hm), put_insert_max. lia.
Qed.

(** In a full cache of capacity at least one, the node evicted is the last
    one of the list as it was before the call. *)
Lemma put_full_state s k v :
  wf s → m_cache_map s !! k = None → 1 ≤ m_max_cache_size s →
  m_max_cache_size s ≤ size s →
  ∃ lru,
    back (m_cache_list s) = Some lru ∧ node_key lru ≠ k ∧
    back (m_cache_list (put_insert k v s)) = Some lru ∧
    put k v s
    = mk_DataStore
        ((fresh (m_cache_list s), (k, v)) :: pop_back (m_cache_list s))
        (delete (node_key lru)
                (<[k := fresh (m_cache_list s)]> (m_cache_map s)))
        (delete (node_key lru) (<[k := true]> (m_modification_map s)))
        (m_max_cache_size s) (m_db s).
Proof.
  intros [Hl Hb] Hm Hcap Hfull. pose proof Hl as [Hi Hk Hidx].
  assert (is_Some (back (m_cache_list s))) as [lru Hlru].
  { apply last_is_Some. intros Hnil. rewrite (linked_size s Hl), Hnil in Hfull.
    simpl in Hfull. lia. }
  exists lru.
  assert (node_key lru ≠ k) as Hne.
  { intros <-. rewrite Hidx in Hm. apply index_None in Hm. apply Hm.
    apply list_elem_of_fmap_2. by apply last_Some_elem_of. }
  assert (back (m_cache_list (put_insert k v s)) = Some lru) as Hb'.
  { rewrite (put_insert_list_miss s k v Hm). unfold back.
    rewrite last_cons. unfold back in Hlru. by rewrite Hlru. }
  split; [done|]. split; [done|]. split; [done|].
  rewrite (put_full s k v Hm Hfull), (put_evict_eq _ lru Hb').
  rewrite put_insert_map, (put_insert_list_miss s k v Hm). simpl.
  f_equal. apply pop_back_cons. intros Hnil. by rewrite Hnil in Hlru.
Qed.

(** With capacity zero the cache is empty before the call and after it. *)
Lemma put_capacity_zero s k v :
  wf s → m_max_cache_size s = 0 →
  m_cache_list (put k v s) = [] ∧ m_cache_map (put k v s) !! k = None.
Proof.
  intros [Hl Hb] Hz. pose proof Hl as [Hi Hk Hidx].
  assert (m_cache_list s = []) as Hnil.
  { apply length_zero_iff_nil. rewrite <- (linked_size s Hl). lia. }
  assert (m_cache_map s !! k = None) as Hm by by rewrite Hidx, Hnil.
  rewrite (put_full s k v Hm) by (rewrite Hz; lia).
  rewrite (put_evict_eq _ (fresh [], (k, v))).
  - rewrite (put_insert_list_miss s k v Hm), Hnil. simpl.
    split; [done|]. unfold node_key. simpl. apply lookup_delete_eq.
  - by rewrite (put_insert_list_miss s k v Hm), Hnil.
Qed.

(** Whenever the capacity is at least one, the entry just put is the
    first node of the list, indexed and marked as modified. *)
Lemma put_front s k v :
  wf s → 1 ≤ m_max_cache_size s →
  head (m_cache_list (put k v s)) = Some (fresh (m_cache_list s), (k, v)) ∧
  m_cache_map (put k v s) !! k = Some (fresh (m_cache_list s)) ∧
  m_modification_map (put k v s) !! k = Some true.
Proof.
  intros Hwf Hcap. pose proof Hwf as [Hl Hb].
  destruct (m_cache_map s !! k) as [it|] eqn:Hm.
  - rewrite (put_hit s k v it Hwf Hm), put_insert_map.
    rewrite (put_insert_list_hit s k v it Hl Hm). simpl.
    split; [done|]. split; [apply lookup_insert_eq|].
    unfold put_insert. simpl. apply lookup_insert_eq.
  - destruct (decide (size s < m_max_cache_size s)) as [Hlt|Hge].
    + rewrite (put_room s k v Hm Hlt), put_insert_map.
      rewrite (put_insert_list_miss s k v Hm). simpl.
      split; [done|]. split; [apply lookup_insert_eq|].
      unfold put_insert. simpl. apply lookup_insert_eq.
    + destruct (put_full_state s k v Hwf Hm Hcap) as (lru & _ & Hne & _ & ->);
        [lia|]. simpl.
      split; [done|].
      by rewrite !lookup_delete_ne, !lookup_insert_eq.
Qed.

(** A hit moves the node of the key to the front. *)
Lemma get_hit_front s k it :
  wf s → m_cache_map s !! k = Some it →
  ∃ v, (it, (k, v)) ∈ m_cache_list s ∧
       (get k s).1 = v ∧
       m_cache_list (get k s).2 = (it, (k, v)) :: erase it (m_cache_list s).
Proof.
  intros [Hl _] Hm. destruct (linked_lookup s k it Hl Hm) as (v & Hin & Hf).
  exists v. split; [done|]. rewrite (get_hit s k it Hm). simpl.
  unfold splice_front, deref. rewrite Hf. simpl.
  by rewrite decide_True.
Qed.

End put_cases.

(** * The purge on destruction *)

Section purge.
Implicit Types (s : DataStore) (k v : string) (rows : list key_val_pair).

Lemma tuple_text_comma k v :
  "( '" +:+ k +:+ "', '" +:+ v +:+ "' )," = tuple_text (k, v) +:+ ",".
Proof. unfold tuple_text. by rewrite !str_app_assoc. Qed.

Lemma purge_loop s (l : list node) (acc : string) (b : bool) :
  foldl (λ (acc : string * bool) (listItr : node),
           if isModified (node_key listItr) s
           then (acc.1 +:+ "( '" +:+ listItr.2.1 +:+ "', '"
                       +:+ listItr.2.2 +:+ "' ),", true)
           else acc)
        (acc, b) l
  = (acc +:+ batch_text (filter (λ e, isModified e.1 s = true) (snd <$> l)),
     if filter (λ e, isModified e.1 s = true) (snd <$> l) is []
     then b else true).
Proof.
  revert acc b. induction l as [|n l IH]; intros acc b.
  - simpl. by rewrite str_app_nil_r.
  - rewrite fmap_cons. cbn [foldl].
    destruct (isModified (node_key n) s) eqn:Hn.
    + cbn [fst]. rewrite IH, filter_cons_True by exact Hn.
      rewrite tuple_text_comma. cbn [batch_text].
      rewrite !str_app_assoc. destruct n as [it [k v]]. simpl.
      by destruct (filter _ _).
    + rewrite IH, filter_cons_False; [done|].
      unfold node_key in Hn. by rewrite Hn.
Qed.

(** The loop of [purgeToStorage] appends exactly the modified entries,
    in list order, and raises [dataAdded] when there is one. *)
Lemma purge_text_spec s :
  purge_text s
  = (insert_sql +:+ batch_text (dirty_entries s),
     if dirty_entries s is [] then false else true).
Proof. unfold purge_text. by rewrite purge_loop. Qed.

Lemma delete_clean s : dirty_entries s = [] → DataStore_delete s = m_db s.
Proof.
  intros Hd. unfold DataStore_delete, purgeToStorage.
  rewrite purge_text_spec, Hd. by destruct (m_cache_list s).
Qed.

Lemma purgeToStorage_clean s :
  dirty_entries s = [] → purgeToStorage s = (true, s).
Proof. intros Hd. unfold purgeToStorage. by rewrite purge_text_spec, Hd. Qed.

Lemma purgeToStorage_dirty s :
  dirty_entries s ≠ [] →
  purgeToStorage s
  = ((exec (c_str (insert_sql +:+ values_text (dirty_entries s))) (m_db s)).1,
     set_db
       (exec (c_str (insert_sql +:+ values_text (dirty_entries s))) (m_db s)).2
       s).
Proof.
  intros Hd. unfold purgeToStorage.
  rewrite purge_text_spec, overwrite_batch_text by done.
  destruct (dirty_entries s); [done|]. by destruct (exec _ _).
Qed.

(** With a modified entry, whatever its strings, the destructor hands the
    database one text: the rows of the modified entries, comma separated. *)
Lemma delete_dirty_text s :
  dirty_entries s ≠ [] →
  DataStore_delete s
  = (exec (c_str (insert_sql +:+ values_text (dirty_entries s))) (m_db s)).2.
Proof.
  intros Hd. unfold DataStore_delete, purgeToStorage.
  rewrite purge_text_spec, overwrite_batch_text by done.
  destruct (m_cache_list s) as [|n l] eqn:Hl.
  { exfalso. apply Hd. unfold dirty_entries, entries. by rewrite Hl. }
  destruct (dirty_entries s); [done|].
  by destruct (exec _ _).
Qed.

(** When the modified entries are plain, that text is the statement that
    writes them. *)
Lemma delete_dirty s :
  Forall (λ r, row_plain r = true) (dirty_entries s) →
  dirty_entries s ≠ [] →
  DataStore_delete s
  = (exec_stmt (InsertOrReplace (dirty_entries s)) (m_db s)).2.
Proof.
  intros Hp Hd. rewrite delete_dirty_text by done.
  unfold exec. by rewrite parse_stmt_values_text.
Qed.

Lemma saves_of_snoc k (j : list stmt) rows :
  saves_of k (j ++ [InsertOrReplace rows])
  = saves_of k j ++ (snd <$> filter (λ r, r.1 = k) rows).
Proof.
  unfold saves_of. rewrite bind_app. simpl. by rewrite app_nil_r.
Qed.

Lemma exec_journal (q : stmt) (d : sqlite3) :
  journal (exec_stmt q d).2 = journal d ++ [q].
Proof. unfold exec_stmt. by destruct (online d). Qed.

Lemma exec_data rows (d : sqlite3) :
  online d = true →
  data (exec_stmt (InsertOrReplace rows) d).2 = upsert rows (data d).
Proof. unfold exec_stmt. by intros ->. Qed.

Lemma upsert_absent rows (tbl : gmap string string) k :
  k ∉ rows.*1 → upsert rows tbl !! k = tbl !! k.
Proof.
  revert tbl. induction rows as [|[k' v'] rows IH]; intros tbl; [done|].
  rewrite fmap_cons. intros [Hne Hk]%not_elem_of_cons. simpl in Hne.
  unfold upsert. simpl. fold (upsert rows (<[k':=v']> tbl)).
  rewrite IH by done. by apply lookup_insert_ne.
Qed.

Lemma upsert_present rows (tbl : gmap string string) k v :
  NoDup (rows.*1) → (k, v) ∈ rows → upsert rows tbl !! k = Some v.
Proof.
  revert tbl. induction rows as [|[k' v'] rows IH]; intros tbl;
    [by intros _ ?%elem_of_nil|].
  rewrite fmap_cons. intros [Hk' Hnd]%NoDup_cons.
  unfold upsert. simpl. fold (upsert rows (<[k':=v']> tbl)).
  intros [[= -> ->]|Hin]%elem_of_cons.
  - rewrite upsert_absent by done. apply lookup_insert_eq.
  - by apply IH.
Qed.

(** A key the map does not mark as modified is in no row of the purge. *)
Lemma dirty_entries_clean s k :
  isModified k s = false → filter (λ r, r.1 = k) (dirty_entries s) = [].
Proof.
  intros Hk. unfold dirty_entries.
  induction (entries s) as [|e l IH]; [done|].
  destruct (isModified e.1 s) eqn:He.
  - rewrite (filter_cons_True _ e l) by done.
    rewrite filter_cons_False; [done|]. intros Heq. congruence.
  - rewrite (filter_cons_False _ e l); [done|]. by rewrite He.
Qed.

Lemma delete_saves_clean s k :
  Forall (λ r, row_plain r = true) (dirty_entries s) →
  isModified k s = false →
  saves_of k (journal (DataStore_delete s)) = saves_of k (journal (m_db s)).
Proof.
  intros Hp Hk. destruct (decide (dirty_entries s = [])) as [Hd|Hd].
  - by rewrite delete_clean.
  - rewrite delete_dirty, exec_journal, saves_of_snoc by done.
    by rewrite dirty_entries_clean, app_nil_r.
Qed.


Lemma entries_fst s : (entries s).*1 = keys (m_cache_list s).
Proof. unfold entries, keys. by rewrite <- list_fmap_compose. Qed.

Lemma dirty_entries_NoDup s :
  linked s → NoDup ((dirty_entries s).*1).
Proof.
  intros [_ Hk _]. rewrite <- entries_fst in Hk. unfold dirty_entries.
  induction (entries s) as [|e l IH]; [apply NoDup_nil_2|].
  rewrite fmap_cons in Hk. apply NoDup_cons in Hk as [He Hk].
  destruct (isModified e.1 s) eqn:Hm.
  - rewrite filter_cons_True by done. rewrite fmap_cons.
    apply NoDup_cons. split; [|by apply IH].
    intros ([k' v'] & Heq & [_ Hin]%list_elem_of_filter)%list_elem_of_fmap.
    apply He. rewrite Heq. by apply (list_elem_of_fmap_2 fst) in Hin.
  - rewrite filter_cons_False; [by apply IH|]. by rewrite Hm.
Qed.

Lemma dirty_entries_absent s k :
  isModified k s = false → k ∉ (dirty_entries s).*1.
Proof.
  intros Hk ([k' v'] & Heq & [Hm _]%list_elem_of_filter)%list_elem_of_fmap.
  simpl in *. congruence.
Qed.

Lemma delete_data_clean s k :
  Forall (λ r, row_plain r = true) (dirty_entries s) →
  isModified k s = false →
  data (DataStore_delete s) !! k = data (m_db s) !! k.
Proof.
  intros Hp Hk. destruct (decide (dirty_entries s = [])) as [Hd|Hd].
  - by rewrite delete_clean.
  - rewrite delete_dirty by done. unfold exec_stmt.
    destruct (online (m_db s)); [|done]. simpl.
    by apply upsert_absent, dirty_entries_absent.
Qed.

End purge.

(** * The modification map along a history *)

Section modification.
Implicit Types (s : DataStore) (k v : string) (e : event) (es : list event).

Lemma put_isModified_other s k k' v :
  k' ≠ k → isModified k s = false → isModified k (put k' v s) = false.
Proof.
  intros Hne Hk. unfold put. case_decide.
  - destruct (back (m_cache_list (put_insert k' v s))) as [n|] eqn:Hb.
    + rewrite (put_evict_eq _ n Hb). unfold isModified. cbn.
      destruct (decide (node_key n = k)) as [->|Hn].
      * by rewrite lookup_delete_eq.
      * rewrite lookup_delete_ne, lookup_insert_ne by done. apply Hk.
    + unfold put_evict. rewrite Hb. unfold isModified. cbn.
      rewrite lookup_insert_ne by done. apply Hk.
  - unfold isModified. cbn. rewrite lookup_insert_ne by done. apply Hk.
Qed.

(** A reload leaves the key it loads unmarked. *)
Lemma get_reload_clean s k :
  m_cache_map s !! k = None → (readFromDB k EmptyString s).1 = true →
  isModified k (get k s).2 = false.
Proof.
  intros Hm Hr. destruct (readFromDB k EmptyString s) as [ok value] eqn:Hrd.
  simpl in Hr. subst ok. rewrite (get_miss s k value Hm Hrd).
  unfold isModified. cbn. by rewrite lookup_insert_eq.
Qed.

(** A [get] never marks anything. *)
Lemma get_isModified s k k' :
  isModified k s = false → isModified k (get k' s).2 = false.
Proof.
  intros Hk. destruct (m_cache_map s !! k') as [it|] eqn:Hm.
  - by rewrite (get_hit s k' it Hm).
  - destruct (readFromDB k' EmptyString s) as [[] value] eqn:Hr.
    + destruct (decide (k' = k)) as [->|Hne].
      * apply get_reload_clean; [done|]. by rewrite Hr.
      * rewrite (get_miss s k' value Hm Hr). unfold isModified. cbn.
        rewrite lookup_insert_ne by done.
        by apply put_isModified_other.
    + unfold get. by rewrite Hm, Hr.
Qed.

Lemma step_isModified s k e :
  (∀ v, e ≠ Put k v) → isModified k s = false →
  isModified k (step e s) = false.
Proof.
  intros He Hk. destruct e as [k' v| k' | | |]; simpl; try done.
  - apply put_isModified_other; [|done]. intros ->. by apply (He v).
  - by apply get_isModified.
Qed.

Lemma run_isModified s k es :
  Forall (λ e, ∀ v, e ≠ Put k v) es → isModified k s = false →
  isModified k (run es s) = false.
Proof.
  intros Hes. revert s.
  induction Hes as [|e es He Hes IH]; intros s Hk; [done|].
  simpl. apply IH. by apply step_isModified.
Qed.

End modification.

(** * The value [get] returns *)

Section get_value.
Implicit Types (s : DataStore) (k v value : string).

(** What a load for a plain key hands back: the stored row if there is
    one, else the value it was given, with the flag raised either way;
    nothing when the library reports an error. *)
Lemma readFromDB_plain s k value :
  sql_plain k = true →
  readFromDB k value s
  = if online (m_db s)
    then (true, default value (data (m_db s) !! k))
    else (false, value).
Proof.
  intros Hk. unfold readFromDB, select_value.
  rewrite (parse_select_plain k Hk). destruct (online (m_db s)); [|done].
  by destruct (data (m_db s) !! k).
Qed.

Lemma readFromDB_cases s k :
  sql_plain k = true →
  readFromDB k EmptyString s
  = if online (m_db s)
    then (true, default EmptyString (data (m_db s) !! k))
    else (false, EmptyString).
Proof. apply readFromDB_plain. Qed.

(** The text [writeToDB] builds from plain strings is the statement that
    writes the one row. *)
Lemma writeToDB_plain s k v :
  sql_plain k = true → sql_plain v = true →
  writeToDB k v s
  = ((exec_stmt (InsertOrReplace [(k, v)]) (m_db s)).1,
     set_db (exec_stmt (InsertOrReplace [(k, v)]) (m_db s)).2 s).
Proof.
  intros Hk Hv. unfold writeToDB.
  assert (insert_sql +:+ "( '" +:+ k +:+ "', '" +:+ v +:+ "' );"
          = insert_sql +:+ values_text [(k, v)]) as ->.
  { cbn [values_text]. unfold tuple_text. cbn [fst snd].
    by rewrite !str_app_assoc. }
  unfold exec. rewrite parse_stmt_values_text.
  - by destruct (exec_stmt _ _).
  - constructor; [|done]. unfold row_plain. cbn [fst snd]. by rewrite Hk, Hv.
  - done.
Qed.

(** On a database that is unavailable every load fails, whatever the
    key. *)
Lemma readFromDB_offline s k value :
  online (m_db s) = false → readFromDB k value s = (false, value).
Proof. intros Hoff. unfold readFromDB, select_value. by rewrite Hoff. Qed.

(** After [put] of a key that was not resident, the iterator the index
    holds for it (if any) refers to the entry just put. *)
Lemma put_miss_deref s k v it :
  m_cache_map s !! k = None → m_cache_map (put k v s) !! k = Some it →
  deref it (m_cache_list (put k v s)) = Some (k, v) ∨
  m_cache_list (put k v s) = [].
Proof.
  intros Hm. unfold put. case_decide.
  - destruct (back (m_cache_list (put_insert k v s))) as [n|] eqn:Hb.
    + rewrite (put_evict_eq _ n Hb). cbn [m_cache_map m_cache_list].
      intros [_ Hit]%lookup_delete_Some. revert Hit.
      rewrite put_insert_map, lookup_insert_eq.
      rewrite (put_insert_list_miss s k v Hm). cbn [begin fst].
      intros [= <-]. destruct (m_cache_list s) as [|m l]; [by right|].
      left. rewrite pop_back_cons by done.
      unfold deref. cbn [find_node fst]. by rewrite decide_True.
    + rewrite (put_insert_list_miss s k v Hm) in Hb.
      unfold back in Hb. by apply last_None in Hb.
  - rewrite put_insert_map, lookup_insert_eq.
    rewrite (put_insert_list_miss s k v Hm). cbn [begin fst].
    intros [= <-]. left.
    unfold deref. cbn [find_node fst]. by rewrite decide_True.
Qed.

(** On a miss whose load succeeds, [get] returns the loaded value, or the
    empty string when the reloaded entry did not stay in the cache. *)
Lemma get_miss_value s k value :
  m_cache_map s !! k = None → readFromDB k EmptyString s = (true, value) →
  (get k s).1 = value ∨ (get k s).1 = EmptyString.
Proof.
  intros Hm Hr. unfold get. rewrite Hm, Hr.
  set (s2 := set_modification_map _ _).
  destruct (m_cache_map s2 !! k) as [it|] eqn:Hit; [|by right].
  subst s2. cbn [m_cache_map m_cache_list set_modification_map fst] in *.
  destruct (put_miss_deref s k value it Hm Hit) as [-> | ->];
    [by left|by right].
Qed.

(** Two nodes of a well-formed list with the same key are the same node. *)
Lemma linked_key_unique s k it it' v v' :
  linked s → (it, (k, v)) ∈ m_cache_list s → (it', (k, v')) ∈ m_cache_list s →
  it = it' ∧ v = v'.
Proof.
  intros [Hi Hk _] H1 H2.
  pose proof (index_elem_Some _ _ _ _ Hk H1) as E1.
  pose proof (index_elem_Some _ _ _ _ Hk H2) as E2.
  rewrite E1 in E2. injection E2 as <-. split; [done|].
  pose proof (find_node_Some _ it _ Hi H1 eq_refl) as F1.
  pose proof (find_node_Some _ it _ Hi H2 eq_refl) as F2.
  congruence.
Qed.

Lemma get_resident_value s k it v :
  wf s → (it, (k, v)) ∈ m_cache_list s → (get k s).1 = v.
Proof.
  intros Hwf Hin. pose proof Hwf as [Hl _]. pose proof Hl as [_ Hk Hidx].
  assert (m_cache_map s !! k = Some it) as Hm
    by (rewrite Hidx; by apply (index_elem_Some _ k it v)).
  destruct (get_hit_front s k it Hwf Hm) as (v' & Hin' & -> & _).
  by destruct (linked_key_unique s k it it v' v Hl Hin' Hin).
Qed.

(** A key absent from the cache and from a readable table is put into the
    cache with the empty string by the [get] that looks for it. *)
Lemma get_absent_key_inserted s k :
  sql_plain k = true →
  wf s → 1 ≤ m_max_cache_size s →
  m_cache_map s !! k = None → online (m_db s) = true →
  data (m_db s) !! k = None →
  (get k s).1 = EmptyString ∧
  head (entries (get k s).2) = Some (k, EmptyString) ∧
  isInCache k (get k s).2 = true.
Proof.
  intros Hk Hwf Hcap Hm Hon Hd.
  pose proof (readFromDB_cases s k Hk) as Hr. rewrite Hon, Hd in Hr. simpl in Hr.
  split; [by destruct (get_miss_value s k EmptyString Hm Hr)|].
  rewrite (get_miss s k EmptyString Hm Hr).
  destruct (put_front s k EmptyString Hwf Hcap) as (Hh & Hi & _).
  unfold entries, isInCache.
  cbn [m_cache_list m_cache_map set_modification_map].
  split.
  - destruct (m_cache_list (put k EmptyString s)); [done|].
    by injection Hh as ->.
  - apply bool_decide_eq_true_2. rewrite Hi. eauto.
Qed.

End get_value.

(** * Index and recency list *)

Section index_and_list.
Implicit Types (s : DataStore) (k v : string).

Lemma filter_eq_singleton (l : list string) k :
  NoDup l → k ∈ l → filter (λ key, key = k) l = [k].
Proof.
  induction 1 as [|x l Hx Hnd IH]; [by intros ?%elem_of_nil|].
  intros [->|Hin]%elem_of_cons.
  - rewrite filter_cons_True by done. f_equal.
    clear IH Hnd. induction l as [|y l IH]; [done|].
    apply not_elem_of_cons in Hx as [Hne Hx].
    rewrite filter_cons_False by congruence. by apply IH.
  - rewrite filter_cons_False; [by apply IH|].
    intros ->. by apply Hx.
Qed.

Lemma store_new max : DataStore_new max db0 = Some (store max).
Proof. done. Qed.

Lemma store_reachable max : reachable (store max).
Proof. apply (reach_new max db0). apply store_new. Qed.

Lemma store1_new max : DataStore_new max db1 = Some (store1 max).
Proof. done. Qed.

End index_and_list.

(** C9. In every reachable state the keys of the index [m_cache_map] are
    exactly the keys occurring in the recency list [m_cache_list], every
    resident key occurs in the list exactly once, and the iterator the index
    holds for it refers to the node carrying that key. *)
Theorem index_agrees_with_list (s : DataStore) :
  reachable s →
  dom (m_cache_map s) = list_to_set (keys (m_cache_list s)) ∧
  (∀ k, isInCache k s = true →
        length (filter (λ key, key = k) (keys (m_cache_list s))) = 1) ∧
  (∀ k it, m_cache_map s !! k = Some it →
           ∃ v, find_node it (m_cache_list s) = Some (it, (k, v))).
Proof.
  intros [Hl _]%reachable_wf. pose proof Hl as [Hi Hk Hidx].
  split; [|split].
  - rewrite Hidx. unfold index. rewrite dom_list_to_map_L.
    by rewrite keys_index_fst.
  - intros k [it Hit]%bool_decide_eq_true.
    rewrite filter_eq_singleton; [done..|].
    rewrite Hidx in Hit. apply index_Some_elem in Hit as [v Hin].
    by apply (list_elem_of_fmap_2 node_key) in Hin.
  - intros k it Hit. destruct (linked_lookup s k it Hl Hit) as (v & _ & Hf).
    by exists v.
Qed.

Lemma index_agrees_with_list_witness :
  let s :=
    run [Put "1" "one"; Put "2" "two"; Get "1"; Put "3" "three"] (store 2) in
  dom (m_cache_map s) = list_to_set (keys (m_cache_list s)) ∧
  (∀ k, isInCache k s = true →
        length (filter (λ key, key = k) (keys (m_cache_list s))) = 1) ∧
  (∀ k it, m_cache_map s !! k = Some it →
           ∃ v, find_node it (m_cache_list s) = Some (it, (k, v))).
Proof.
  apply index_agrees_with_list. apply reachable_run, store_reachable.
Defined.

(** C3. Whatever the capacity given to the constructor and whatever
    sequence of calls follows (the [put]s, and the [get]s with the [put]s
    their reloads perform, while the database comes and goes), [size()] is
    at most that capacity after every call. *)
Theorem size_within_capacity (max : nat) (db : sqlite3) (s0 : DataStore)
    (es : list event) :
  DataStore_new max db = Some s0 →
  size (run es s0) ≤ max.
Proof.
  intros Hnew.
  assert (reachable (run es s0)) as [_ Hb]%reachable_wf
    by (apply reachable_run; by apply (reach_new max db)).
  by rewrite run_max, (new_max max db s0 Hnew) in Hb.
Qed.

Lemma size_within_capacity_witness :
  size (run [Put "1" "one"; Put "2" "two"; Get "1"; Put "3" "three"] (store 2))
  ≤ 2.
Proof.
  apply (size_within_capacity 2 db0 (store 2)). reflexivity.
Defined.

(** Counterexample to C5 as stated: with capacity zero the entry just put
    is evicted at once, so after [put] the key is not resident, not at the
    front and not marked as modified. *)
Lemma put_capacity_zero_not_resident :
  reachable (store 0) ∧ m_max_cache_size (store 0) = 0 ∧
  isInCache "x" (put "x" "y" (store 0)) = false ∧
  front_key (put "x" "y" (store 0)) = None ∧
  isModified "x" (put "x" "y" (store 0)) = false.
Proof.
  split; [apply store_reachable|]. by vm_compute.
Qed.

(** C5, amended. In every reachable state, after [put(k, v)] the number of
    resident entries is at most the capacity; if the capacity is at least
    one, [k] is resident, its entry [(k, v)] is the first of the recency
    list and [k] is marked as modified; if the capacity is zero, [k] is not
    resident and the list is empty. *)
Theorem put_postconditions (s : DataStore) (k v : string) :
  reachable s →
  size (put k v s) ≤ m_max_cache_size s ∧
  (1 ≤ m_max_cache_size s →
     isInCache k (put k v s) = true ∧
     front_key (put k v s) = Some k ∧
     (∃ it, head (m_cache_list (put k v s)) = Some (it, (k, v)) ∧
            m_cache_map (put k v s) !! k = Some it) ∧
     isModified k (put k v s) = true) ∧
  (m_max_cache_size s = 0 →
     isInCache k (put k v s) = false ∧ m_cache_list (put k v s) = []).
Proof.
  intros Hwf%reachable_wf. split; [|split].
  - destruct (wf_put s k v Hwf) as [_ Hb]. by rewrite put_max in Hb.
  - intros Hcap. destruct (put_front s k v Hwf Hcap) as (Hh & Hm & Hmod).
    split; [|split; [|split]].
    + apply bool_decide_eq_true_2. rewrite Hm. eauto.
    + unfold front_key. by rewrite Hh.
    + eauto.
    + unfold isModified. by rewrite Hmod.
  - intros Hz. destruct (put_capacity_zero s k v Hwf Hz) as [Hnil Hm].
    unfold isInCache. rewrite Hm. split; [|done].
    apply bool_decide_eq_false_2. by intros [? ?].
Qed.

Lemma put_postconditions_witness :
  let s := run [Put "1" "one"; Put "2" "two"] (store 2) in
  size (put "3" "three" s) ≤ m_max_cache_size s ∧
  (1 ≤ m_max_cache_size s →
     isInCache "3" (put "3" "three" s) = true ∧
     front_key (put "3" "three" s) = Some "3" ∧
     (∃ it,
        head (m_cache_list (put "3" "three" s)) = Some (it, ("3", "three")) ∧
        m_cache_map (put "3" "three" s) !! "3" = Some it) ∧
     isModified "3" (put "3" "three" s) = true) ∧
  (m_max_cache_size s = 0 →
     isInCache "3" (put "3" "three" s) = false ∧
     m_cache_list (put "3" "three" s) = []).
Proof.
  apply put_postconditions. apply reachable_run, store_reachable.
Defined.

(** * Recency: the list order is the order of last use *)

Section recency.
Implicit Types (s : DataStore) (k v : string) (es : list event).

Lemma last_use_from_snoc now last k es e :
  last_use_from now last k (es ++ [e])
  = if uses e k then S (now + length es) else last_use_from now last k es.
Proof.
  revert now last. induction es as [|e' es IH]; intros now last; simpl.
  - by rewrite Nat.add_0_r.
  - rewrite IH. by rewrite Nat.add_succ_r.
Qed.

Lemma last_use_snoc k es e :
  last_use k (es ++ [e])
  = if uses e k then S (length es) else last_use k es.
Proof. apply last_use_from_snoc. Qed.

Lemma last_use_from_le now last k es :
  last ≤ now → last_use_from now last k es ≤ now + length es.
Proof.
  revert now last. induction es as [|e es IH]; intros now last Hle; simpl.
  - lia.
  - rewrite Nat.add_succ_r. apply (IH (S now)). destruct (uses e k); lia.
Qed.

Lemma last_use_le k es : last_use k es ≤ length es.
Proof. apply (last_use_from_le 0 0 k es). lia. Qed.

Lemma touches_put k v : touches (Put k v) k.
Proof.
  split; simpl; [by apply bool_decide_eq_true_2|].
  intros k' Hne. by apply bool_decide_eq_false_2.
Qed.

Lemma touches_get k : touches (Get k) k.
Proof.
  split; simpl; [by apply bool_decide_eq_true_2|].
  intros k' Hne. by apply bool_decide_eq_false_2.
Qed.

Lemma last_use_touched es e k :
  touches e k → last_use k (es ++ [e]) = S (length es).
Proof. intros [Hk _]. by rewrite last_use_snoc, Hk. Qed.

Lemma last_use_untouched es e k k' :
  touches e k → k' ≠ k → last_use k' (es ++ [e]) = last_use k' es.
Proof. intros [_ Ho] Hne. by rewrite last_use_snoc, Ho. Qed.

Lemma by_recency_ext es es' (l : list string) :
  (∀ k, k ∈ l → last_use k es' = last_use k es) →
  by_recency es l → by_recency es' l.
Proof.
  unfold by_recency. intros Heq Hs. induction Hs as [|k l Hs IH Hall].
  - constructor.
  - constructor.
    + apply IH. intros k' Hk'. apply Heq. by right.
    + rewrite Forall_forall in Hall |- *. intros k' Hk'.
      rewrite (Heq k) by left. rewrite (Heq k') by by right. by apply Hall.
Qed.

Lemma by_recency_filter es (P : string → Prop) `{∀ k, Decision (P k)}
    (l : list string) :
  by_recency es l → by_recency es (filter P l).
Proof.
  unfold by_recency. induction 1 as [|k l Hs IH Hall]; [constructor|].
  destruct (decide (P k)).
  - rewrite filter_cons_True by done. constructor; [done|].
    rewrite Forall_forall in Hall |- *.
    intros k' [_ Hk']%list_elem_of_filter. by apply Hall.
  - by rewrite filter_cons_False.
Qed.

Lemma by_recency_removelast es (l : list string) :
  by_recency es l → by_recency es (removelast l).
Proof.
  unfold by_recency. induction 1 as [|k l Hs IH Hall]; [constructor|].
  destruct l as [|k' l]; [constructor|].
  change (removelast (k :: k' :: l)) with (k :: removelast (k' :: l)).
  constructor; [done|].
  rewrite Forall_forall in Hall |- *. intros x Hx. apply Hall.
  destruct (exists_last (l:=k' :: l)) as (l' & a & Heq); [done|].
  rewrite Heq in Hx |- *. rewrite removelast_last in Hx.
  apply elem_of_app. by left.
Qed.

(** The key just used comes before every key not used since. *)
Lemma by_recency_front es e k (l : list string) :
  touches e k → by_recency es l →
  by_recency (es ++ [e]) (k :: filter (λ x, x ≠ k) l).
Proof.
  intros Ht Hs. constructor.
  - apply (by_recency_ext es).
    + intros k' [Hne _]%list_elem_of_filter.
      by apply (last_use_untouched es e k).
    + by apply by_recency_filter.
  - apply Forall_forall. intros k' [Hne _]%list_elem_of_filter.
    rewrite (last_use_touched es e k Ht).
    rewrite (last_use_untouched es e k k' Ht Hne).
    pose proof (last_use_le k' es). lia.
Qed.

Lemma filter_absent (l : list string) k :
  k ∉ l → filter (λ x, x ≠ k) l = l.
Proof.
  induction l as [|x l IH]; [done|]. intros Hk.
  rewrite filter_cons_True by (intros ->; apply Hk; left).
  f_equal. apply IH. intros ?. apply Hk. by right.
Qed.

Lemma keys_erase (l : list node) it k v :
  NoDup (itrs l) → NoDup (keys l) → (it, (k, v)) ∈ l →
  keys (erase it l) = filter (λ x, x ≠ k) (keys l).
Proof.
  induction l as [|n l IH]; [by intros _ _ ?%elem_of_nil|].
  unfold itrs, keys. rewrite !fmap_cons.
  intros [Hi Hil]%NoDup_cons [Hk Hkl]%NoDup_cons Hin.
  destruct (decide (n.1 = it)) as [Heq|Hne].
  - assert (n = (it, (k, v))) as ->.
    { apply elem_of_cons in Hin as [->|Hin]; [done|].
      exfalso. apply Hi. subst it.
      apply (list_elem_of_fmap_2 fst) in Hin. exact Hin. }
    change (erase it ((it, (k, v)) :: l))
      with (erase (it, (k, v)).1 ((it, (k, v)) :: l)).
    rewrite erase_cons_eq, erase_absent by done.
    unfold node_key at 2. cbn [fst snd].
    rewrite filter_cons_False by (intros Hn; by apply Hn).
    symmetry. by apply filter_absent.
  - assert ((it, (k, v)) ∈ l) as Hin'.
    { apply elem_of_cons in Hin as [Heq|Hin]; [|done].
      subst n. by destruct Hne. }
    rewrite erase_cons_ne by done. rewrite fmap_cons.
    rewrite filter_cons_True.
    + f_equal. by apply IH.
    + intros Heq. apply Hk. rewrite Heq.
      apply (list_elem_of_fmap_2 node_key) in Hin'. exact Hin'.
Qed.

Lemma keys_pop_back (l : list node) : keys (pop_back l) = removelast (keys l).
Proof.
  unfold keys, pop_back. induction l as [|n l IH]; [done|].
  destruct l as [|n' l]; [done|].
  change (removelast (n :: n' :: l)) with (n :: removelast (n' :: l)).
  rewrite !fmap_cons. rewrite fmap_cons in IH. by rewrite IH.
Qed.


Lemma isInCache_keys s k :
  linked s → isInCache k s = true ↔ k ∈ keys (m_cache_list s).
Proof.
  intros [_ _ Hidx]. unfold isInCache. rewrite bool_decide_eq_true, Hidx.
  destruct (index (m_cache_list s) !! k) as [it|] eqn:E.
  - split; [intros _|by eauto].
    destruct (decide (k ∈ keys (m_cache_list s))) as [|Hn]; [done|].
    apply index_None in Hn. congruence.
  - apply index_None in E. split; [by intros [? ?]|done].
Qed.

Lemma put_insert_keys s k v :
  linked s →
  keys (m_cache_list (put_insert k v s))
  = k :: filter (λ x, x ≠ k) (keys (m_cache_list s)).
Proof.
  intros Hl. pose proof Hl as [Hi Hk Hidx].
  destruct (m_cache_map s !! k) as [it|] eqn:Hm.
  - rewrite (put_insert_list_hit s k v it Hl Hm).
    rewrite Hidx in Hm. apply index_Some_elem in Hm as [v' Hin].
    unfold keys at 1. rewrite fmap_cons. fold (keys (erase it (m_cache_list s))).
    by rewrite (keys_erase _ it k v').
  - rewrite (put_insert_list_miss s k v Hm).
    unfold keys at 1. rewrite fmap_cons. fold (keys (m_cache_list s)).
    rewrite filter_absent; [done|]. apply index_None. by rewrite <- Hidx.
Qed.

Lemma put_keys s k v :
  linked s →
  keys (m_cache_list (put k v s))
  = if decide (m_max_cache_size s < size (put_insert k v s))
    then removelast (k :: filter (λ x, x ≠ k) (keys (m_cache_list s)))
    else k :: filter (λ x, x ≠ k) (keys (m_cache_list s)).
Proof.
  intros Hl. unfold put. fold (size (put_insert k v s)).
  rewrite put_insert_max. case_decide.
  - destruct (put_insert_back s k v Hl) as [n Hn].
    rewrite (put_evict_eq _ n Hn). cbn [m_cache_list].
    by rewrite keys_pop_back, put_insert_keys.
  - by apply put_insert_keys.
Qed.

Lemma put_by_recency s es e k v :
  linked s → touches e k →
  by_recency es (keys (m_cache_list s)) →
  by_recency (es ++ [e]) (keys (m_cache_list (put_insert k v s))) ∧
  by_recency (es ++ [e]) (keys (m_cache_list (put k v s))).
Proof.
  intros Hl Ht Hs.
  pose proof (by_recency_front es e k _ Ht Hs) as Hf.
  rewrite put_keys, put_insert_keys by done. split; [done|].
  case_decide; [by apply by_recency_removelast|done].
Qed.

Lemma get_by_recency s es k :
  wf s → by_recency es (keys (m_cache_list s)) →
  by_recency (es ++ [Get k]) (keys (m_cache_list (get k s).2)).
Proof.
  intros Hwf Hs. pose proof Hwf as [Hl _]. pose proof Hl as [Hi Hk Hidx].
  destruct (m_cache_map s !! k) as [it|] eqn:Hm.
  - destruct (get_hit_front s k it Hwf Hm) as (v & Hin & _ & ->).
    unfold keys at 1. rewrite fmap_cons.
    fold (keys (erase it (m_cache_list s))).
    rewrite (keys_erase _ it k v) by done.
    by apply by_recency_front; [apply touches_get|].
  - destruct (readFromDB k EmptyString s) as [[] value] eqn:Hr.
    + rewrite (get_miss s k value Hm Hr). cbn [m_cache_list].
      by apply (put_by_recency s es (Get k) k value Hl (touches_get k)).
    + rewrite (get_load_failed s k value Hm Hr). cbn [snd].
      apply (by_recency_ext es); [|done].
      intros k' Hk'. apply (last_use_untouched es (Get k) k k' (touches_get k)).
      intros ->. apply index_None in Hk'; [done|]. by rewrite <- Hidx.
Qed.

Lemma step_by_recency s es e :
  wf s → by_recency es (keys (m_cache_list s)) →
  by_recency (es ++ [e]) (keys (m_cache_list (step e s))).
Proof.
  intros Hwf Hs. destruct e as [k v|k|k| |up]; simpl.
  - by apply (put_by_recency s es (Put k v) k v (wf_linked _ Hwf)
                (touches_put k v)).
  - by apply get_by_recency.
  - apply (by_recency_ext es); [|done]. intros k' _. by rewrite last_use_snoc.
  - apply (by_recency_ext es); [|done]. intros k' _. by rewrite last_use_snoc.
  - apply (by_recency_ext es); [|done]. intros k' _. by rewrite last_use_snoc.
Qed.

Lemma run_snoc es e s : run (es ++ [e]) s = step e (run es s).
Proof. unfold run. by rewrite foldl_app. Qed.

(** Along every history the recency list runs from the key used last to
    the key whose last use is the oldest. *)
Lemma run_by_recency max db s0 es :
  DataStore_new max db = Some s0 →
  by_recency es (keys (m_cache_list (run es s0))).
Proof.
  intros Hnew. induction es as [|e es IH] using rev_ind.
  - apply new_inv in Hnew as [_ ->]. constructor.
  - rewrite run_snoc. apply step_by_recency; [|done].
    apply reachable_wf, reachable_run. by apply (reach_new max db).
Qed.

(** When the insertion of [put] makes the number of entries exceed the
    capacity, one key leaves: the last of the list. *)
Lemma put_evicts s k v :
  linked s → m_max_cache_size s < size (put_insert k v s) →
  ∃ lru,
    keys (m_cache_list (put_insert k v s))
    = keys (m_cache_list (put k v s)) ++ [lru] ∧
    evicts lru (put_insert k v s) (put k v s).
Proof.
  intros Hl Hgt. pose proof (put_insert_linked s k v Hl) as Hl1.
  destruct (put_insert_back s k v Hl) as [n Hn]. exists (node_key n).
  assert (put k v s = put_evict (put_insert k v s)) as ->.
  { unfold put. fold (size (put_insert k v s)).
    rewrite put_insert_max. by rewrite decide_True. }
  rewrite (put_evict_eq _ n Hn). cbn [m_cache_list]. split.
  - rewrite (pop_back_snoc _ _ Hn) at 1. unfold keys. by rewrite fmap_app.
  - split; [|split].
    + apply isInCache_keys; [done|]. apply list_elem_of_fmap_2.
      unfold back in Hn. by apply last_Some_elem_of.
    + unfold isInCache. cbn [m_cache_map]. rewrite lookup_delete_eq.
      apply bool_decide_eq_false_2. by intros [? ?].
    + intros k' Hne. unfold isInCache. cbn [m_cache_map].
      by rewrite lookup_delete_ne.
Qed.

Lemma evicted_least_recently_used s1 s2 es lru :
  linked s1 → by_recency es (keys (m_cache_list s1)) →
  keys (m_cache_list s1) = keys (m_cache_list s2) ++ [lru] →
  evicts lru s1 s2 →
  least_recently_used es lru s1.
Proof.
  intros Hl Hs Hk (Hin & _ & _). split; [done|].
  intros k' Hk' Hne. apply (isInCache_keys s1 k' Hl) in Hk'.
  rewrite Hk in Hk', Hs. apply elem_of_app in Hk' as [Hk'|Hk'].
  - apply (StronglySorted_app_1_elem_of _ _ _ k' lru Hs Hk'). left.
  - apply list_elem_of_singleton in Hk'. done.
Qed.

(** An insertion that makes the number of entries exceed the capacity
    evicts the key whose last use is the oldest. *)
Lemma insertion_evicts_lru s es e k v :
  wf s → touches e k → by_recency es (keys (m_cache_list s)) →
  m_max_cache_size s < size (put_insert k v s) →
  ∃ lru,
    evicts lru (put_insert k v s) (put k v s) ∧
    least_recently_used (es ++ [e]) lru (put_insert k v s) ∧
    (1 ≤ m_max_cache_size s → least_recently_used es lru s).
Proof.
  intros Hwf Ht Hs Hgt. pose proof Hwf as [Hl Hb].
  pose proof (put_insert_linked s k v Hl) as Hl1.
  destruct (put_by_recency s es e k v Hl Ht Hs) as [Hs1 _].
  destruct (put_evicts s k v Hl Hgt) as (lru & Hk & Hev). exists lru.
  pose proof (evicted_least_recently_used _ _ _ lru Hl1 Hs1 Hk Hev) as Hlru.
  split; [done|]. split; [done|]. intros Hcap.
  assert (m_cache_map s !! k = None) as Hm.
  { destruct (m_cache_map s !! k) as [it|] eqn:Hm; [|done].
    rewrite put_insert_size in Hgt. unfold isInCache in Hgt.
    rewrite bool_decide_eq_true_2 in Hgt by eauto. lia. }
  assert (k ∉ keys (m_cache_list s)) as Hk0.
  { apply index_None. by rewrite <- (linked_index s Hl). }
  assert (∀ k', k' ∈ keys (m_cache_list s) →
                isInCache k' (put_insert k v s) = true ∧ k' ≠ k) as Hold.
  { intros k' Hk'. split; [|by intros ->].
    apply isInCache_keys; [done|].
    rewrite put_insert_keys, filter_absent by done. by right. }
  assert (lru ≠ k) as Hne.
  { intros ->. rewrite (put_insert_size_miss s k v Hm) in Hgt.
    rewrite (linked_size s Hl) in Hgt.
    destruct (m_cache_list s) as [|n l] eqn:Hlist; [simpl in Hgt; lia|].
    destruct (Hold (node_key n)) as [Hin Hn]; [left|].
    destruct Hlru as [_ Hlru]. specialize (Hlru _ Hin Hn).
    rewrite (last_use_touched es e k Ht) in Hlru.
    rewrite (last_use_untouched es e k _ Ht Hn) in Hlru.
    pose proof (last_use_le (node_key n) es). lia. }
  destruct Hlru as [Hin Hlru].
  assert (lru ∈ keys (m_cache_list s)) as Hin0.
  { apply (isInCache_keys _ _ Hl1) in Hin.
    rewrite put_insert_keys, filter_absent in Hin by done.
    by apply elem_of_cons in Hin as [?|?]. }
  split; [by apply isInCache_keys|].
  intros k' Hk' Hne'. apply (isInCache_keys s k' Hl) in Hk'.
  destruct (Hold k' Hk') as [Hin' Hnk]. specialize (Hlru k' Hin' Hne').
  rewrite (last_use_untouched es e k lru Ht Hne) in Hlru.
  by rewrite (last_use_untouched es e k k' Ht Hnk) in Hlru.
Qed.

(** A key that the call just used and that is resident is the most
    recently used one. *)
Lemma touched_most_recently_used s es e k :
  touches e k → isInCache k s = true →
  most_recently_used (es ++ [e]) k s.
Proof.
  intros Ht Hin. split; [done|]. intros k' _ Hne.
  rewrite (last_use_touched es e k Ht).
  rewrite (last_use_untouched es e k k' Ht Hne).
  pose proof (last_use_le k' es). lia.
Qed.
End recency.

(** Counterexample to C4 as stated: with capacity zero the key just put is
    not the most recently used resident key, nothing being resident after
    the call. *)
Lemma put_capacity_zero_not_front :
  reachable (store 0) ∧
  front_key (put "x" "y" (store 0)) ≠ Some "x" ∧
  m_cache_list (put "x" "y" (store 0)) = [].
Proof.
  split; [apply store_reachable|]. by vm_compute.
Qed.

(** C4, amended. Take any history [es] of calls on a newly
    constructed [DataStore] and let [s] be the state it leads to. The
    recency list of [s] runs from the key used last to the key whose last
    use is the oldest. If the capacity is at least one, then after
    [put(k, v)] the key [k] is at the front and is the most recently used
    resident key; after a [get(k)] that finds [k] resident, likewise. And
    whenever an insertion, by [put] or by the reload of a [get], makes the
    number of resident entries exceed the capacity, one key is evicted and
    it is the least recently used resident key: of the keys resident at
    that moment, and, when the capacity is at least one, of the keys
    resident before the call. *)
Theorem recency_order (max : nat) (db : sqlite3) (s0 s : DataStore)
    (es : list event) (k v : string) :
  DataStore_new max db = Some s0 → s = run es s0 →
  by_recency es (keys (m_cache_list s)) ∧
  (1 ≤ max →
     front_key (put k v s) = Some k ∧
     most_recently_used (es ++ [Put k v]) k (put k v s)) ∧
  (isInCache k s = true →
     front_key (get k s).2 = Some k ∧
     most_recently_used (es ++ [Get k]) k (get k s).2) ∧
  (max < size (put_insert k v s) →
     ∃ lru,
       evicts lru (put_insert k v s) (put k v s) ∧
       least_recently_used (es ++ [Put k v]) lru (put_insert k v s) ∧
       (1 ≤ max → least_recently_used es lru s)) ∧
  (∀ value,
     isInCache k s = false → readFromDB k EmptyString s = (true, value) →
     max < size (put_insert k value s) →
     ∃ lru,
       evicts lru (put_insert k value s) (get k s).2 ∧
       least_recently_used (es ++ [Get k]) lru (put_insert k value s) ∧
       (1 ≤ max → least_recently_used es lru s)).
Proof.
  intros Hnew ->.
  pose proof (run_by_recency max db s0 es Hnew) as Hs.
  assert (wf (run es s0)) as Hwf.
  { apply reachable_wf, reachable_run. by apply (reach_new max db). }
  assert (m_max_cache_size (run es s0) = max) as Hmax.
  { rewrite run_max. by apply new_inv in Hnew as [_ ->]. }
  set (s := run es s0) in *. rewrite <- Hmax.
  split; [done|]. split; [|split; [|split]].
  - intros Hcap. destruct (put_front s k v Hwf Hcap) as (Hh & Hi & _).
    split; [unfold front_key; by rewrite Hh|].
    apply touched_most_recently_used; [apply touches_put|].
    apply bool_decide_eq_true_2. by rewrite Hi.
  - intros Hin. pose proof Hin as [it Hit]%bool_decide_eq_true.
    destruct (get_hit_front s k it Hwf Hit) as (v0 & _ & _ & Hlist).
    split; [unfold front_key; by rewrite Hlist|].
    apply touched_most_recently_used; [apply touches_get|].
    rewrite (get_hit s k it Hit). exact Hin.
  - intros Hgt.
    by apply (insertion_evicts_lru s es (Put k v) k v Hwf (touches_put k v)).
  - intros value Hmiss Hr Hgt.
    assert (m_cache_map s !! k = None) as Hm.
    { apply bool_decide_eq_false in Hmiss. by apply eq_None_not_Some. }
    destruct (insertion_evicts_lru s es (Get k) k value Hwf (touches_get k)
                Hs Hgt) as (lru & Hev & Hlru).
    exists lru. split; [|done].
    rewrite (get_miss s k value Hm Hr). exact Hev.
Qed.

Lemma recency_order_witness :
  let es := [Put "1" "one"; Put "3" "three"; Get "1"] in
  let s := run es (store1 2) in
  by_recency es (keys (m_cache_list s)) ∧
  (1 ≤ 2 →
     front_key (put "2" "zwei" s) = Some "2" ∧
     most_recently_used (es ++ [Put "2" "zwei"]) "2" (put "2" "zwei" s)) ∧
  (isInCache "2" s = true →
     front_key (get "2" s).2 = Some "2" ∧
     most_recently_used (es ++ [Get "2"]) "2" (get "2" s).2) ∧
  (2 < size (put_insert "2" "zwei" s) →
     ∃ lru,
       evicts lru (put_insert "2" "zwei" s) (put "2" "zwei" s) ∧
       least_recently_used (es ++ [Put "2" "zwei"]) lru
                           (put_insert "2" "zwei" s) ∧
       (1 ≤ 2 → least_recently_used es lru s)) ∧
  (∀ value,
     isInCache "2" s = false →
     readFromDB "2" EmptyString s = (true, value) →
     2 < size (put_insert "2" value s) →
     ∃ lru,
       evicts lru (put_insert "2" value s) (get "2" s).2 ∧
       least_recently_used (es ++ [Get "2"]) lru (put_insert "2" value s) ∧
       (1 ≤ 2 → least_recently_used es lru s)).
Proof.
  apply (recency_order 2 db1 (store1 2)); reflexivity.
Defined.

(** In that history the key evicted is ["3"]: ["1"] was put first but read
    last. *)
Example recency_example :
  let s := run [Put "1" "one"; Put "3" "three"; Get "1"] (store1 2) in
  keys (m_cache_list s) = ["1"; "3"] ∧
  keys (m_cache_list (put "2" "zwei" s)) = ["2"; "1"] ∧
  keys (m_cache_list (get "2" s).2) = ["2"; "1"] ∧
  (get "2" s).1 = "two".
Proof. by vm_compute. Qed.




(** A run of the purge: ["2"] came in through a reload and is skipped. *)
Example purge_example :
  journal (DataStore_delete
             (run [Put "1" "one"; Get "2"; Put "3" "three"] (store 3)))
  = [CreateTable; InsertOrReplace [("3", "three"); ("1", "one")]].
Proof. by vm_compute. Qed.

(** C8. Let [k] enter the cache through a reload: [get(k)] misses and the
    load succeeds. Along any later history without a [put(k, ...)], through
    every eviction of [k] and every further reload of it, [k] is never
    marked as modified, no statement is handed to the database and the table
    stays as it was. If the object is destroyed at the end, [k] is not among
    the entries the purge pastes into its statement; so when those entries
    hold no quote and no NUL character, which would change what the pasted
    text says, the purge writes no value for [k] and leaves its row as it
    was. *)
Theorem reload_never_saved (s : DataStore) (k : string) (es : list event) :
  isInCache k s = false →
  (readFromDB k EmptyString s).1 = true →
  Forall (λ e, ∀ v, e ≠ Put k v) es →
  isModified k (run es (get k s).2) = false ∧
  journal (m_db (run es (get k s).2)) = journal (m_db s) ∧
  data (m_db (run es (get k s).2)) = data (m_db s) ∧
  (k ∉ fst <$> dirty_entries (run es (get k s).2)) ∧
  (Forall (λ r, row_plain r = true) (dirty_entries (run es (get k s).2)) →
   saves_of k (journal (DataStore_delete (run es (get k s).2)))
   = saves_of k (journal (m_db s)) ∧
   data (DataStore_delete (run es (get k s).2)) !! k = data (m_db s) !! k).
Proof.
  intros Hmiss Hload Hes.
  assert (m_cache_map s !! k = None) as Hm.
  { apply bool_decide_eq_false in Hmiss. by apply eq_None_not_Some. }
  assert (isModified k (run es (get k s).2) = false) as Hclean
    by by apply run_isModified, get_reload_clean.
  split; [done|].
  split; [by rewrite run_journal, get_db|].
  split; [by rewrite run_data, get_db|].
  split; [by apply dirty_entries_absent|].
  intros Hp. rewrite delete_saves_clean, delete_data_clean by done.
  by rewrite run_journal, run_data, get_db.
Qed.

Lemma reload_never_saved_witness :
  let es := [Put "3" "three"; Get "2"; Put "4" "four"] in
  isModified "2" (run es (get "2" (store1 1)).2) = false ∧
  journal (m_db (run es (get "2" (store1 1)).2)) = journal (m_db (store1 1)) ∧
  data (m_db (run es (get "2" (store1 1)).2)) = data (m_db (store1 1)) ∧
  ("2" ∉ fst <$> dirty_entries (run es (get "2" (store1 1)).2)) ∧
  (Forall (λ r, row_plain r = true)
          (dirty_entries (run es (get "2" (store1 1)).2)) →
   saves_of "2" (journal (DataStore_delete (run es (get "2" (store1 1)).2)))
   = saves_of "2" (journal (m_db (store1 1))) ∧
   data (DataStore_delete (run es (get "2" (store1 1)).2)) !! "2"
   = data (m_db (store1 1)) !! "2").
Proof.
  apply (reload_never_saved (store1 1) "2").
  - reflexivity.
  - reflexivity.
  - repeat constructor; discriminate.
Defined.




(** C1. Capacity one, [put("1", "one")] then [put("2", "two")], as in the
    test [TestMaxCacheSize]: key ["1"] is resident and marked as modified
    when the second [put] evicts it, yet the eviction hands nothing to the
    database, which is left exactly as it was; the [get("1")] the test then
    expects to answer ["one"] answers the empty string. *)
Theorem dirty_eviction_not_saved :
  let s1 := put "1" "one" (store 1) in
  let s2 := put "2" "two" s1 in
  isInCache "1" s1 = true ∧ isModified "1" s1 = true ∧
  isInCache "1" s2 = false ∧
  m_db s2 = m_db s1 ∧
  saves_of "1" (journal (m_db s2)) = [] ∧
  data (m_db s2) !! "1" = None ∧
  (get "1" s2).1 = EmptyString.
Proof. by vm_compute. Qed.

(** C2. Capacity one with ["1"] resident and modified, an empty table, and
    [get("k")] for a key that is in neither: the load reports success
    without a row, so ["k"] is put into the cache with the empty string,
    evicting ["1"]; the state is not left unchanged. *)
Theorem get_absent_key_is_cached :
  let s := put "1" "one" (store 1) in
  isInCache "k" s = false ∧ data (m_db s) !! "k" = None ∧
  readFromDB "k" EmptyString s = (true, EmptyString) ∧
  (get "k" s).1 = EmptyString ∧
  entries s = [("1", "one")] ∧
  entries (get "k" s).2 = [("k", EmptyString)] ∧
  isInCache "k" (get "k" s).2 = true ∧
  isInCache "1" (get "k" s).2 = false ∧
  m_modification_map (get "k" s).2 !! "k" = Some false.
Proof. by vm_compute. Qed.

(** C7. Capacity one, [put("k", "v1")], [put("k", "v2")], then a [put] of
    another key that evicts ["k"]: the eviction writes nothing, so ["v2"] is
    not written once but never. Destroying the object instead of evicting
    does write ["v2"], once, and never ["v1"]. *)
Theorem coalesced_update_not_saved_on_eviction :
  let s2 := run [Put "k" "v1"; Put "k" "v2"] (store 1) in
  let s3 := put "j" "w" s2 in
  entries s2 = [("k", "v2")] ∧ isModified "k" s2 = true ∧
  isInCache "k" s3 = false ∧
  saves_of "k" (journal (m_db s3)) = [] ∧
  data (m_db s3) !! "k" = None ∧
  saves_of "k" (journal (DataStore_delete s2)) = ["v2"].
Proof. by vm_compute. Qed.

(** * Further properties of the member functions *)

(** X1. In any state whatever, [put] and [get] hand the database back as
    they found it: table, availability and journal are those of before the
    call. In particular the eviction a [put] or a reload performs never
    writes. *)
Theorem put_get_leave_database (s : DataStore) (k v : string) :
  m_db (put k v s) = m_db s ∧ m_db (get k s).2 = m_db s.
Proof. split; [apply put_db|apply get_db]. Qed.

(** X2. From construction on, through any history of calls and outages,
    the table holds what the database file held when it was opened and the
    only statement the database has been handed is the [CREATE TABLE] of the
    constructor: nothing is persisted while the object lives. *)
Theorem history_leaves_table (max : nat) (db : sqlite3) (s0 : DataStore)
    (es : list event) :
  DataStore_new max db = Some s0 →
  data (m_db (run es s0)) = data db ∧
  journal (m_db (run es s0)) = journal db ++ [CreateTable].
Proof.
  intros (Hon & ->)%new_inv. by rewrite run_data, run_journal.
Qed.

Lemma history_leaves_table_witness :
  let es := [Put "1" "one"; Put "3" "three"; Get "2"; Fault false; Get "1"] in
  data (m_db (run es (store1 1))) = data db1 ∧
  journal (m_db (run es (store1 1))) = journal db1 ++ [CreateTable].
Proof.
  apply (history_leaves_table 1 db1 (store1 1)). reflexivity.
Defined.

Section put_shape.
Implicit Types (s : DataStore) (k v : string).

Lemma sublist_pop_back (l : list node) : pop_back l `sublist_of` l.
Proof.
  destruct (back l) as [n|] eqn:Hb.
  - rewrite (pop_back_snoc l n Hb) at 2. by apply sublist_inserts_r.
  - unfold back in Hb. apply last_None in Hb. by subst l.
Qed.

(** With a capacity of at least one, the list after [put(k, v)] is the new
    node followed by nodes of the old list, in their old order; what follows
    the new node, and the modification map, do not depend on [v]. *)
Lemma put_shape s k :
  wf s → 1 ≤ m_max_cache_size s →
  ∃ (rest : list node) (mods : gmap string bool),
    rest `sublist_of` m_cache_list s ∧
    mods !! k = Some true ∧
    ∀ v, m_cache_list (put k v s) = (fresh (m_cache_list s), (k, v)) :: rest ∧
         m_modification_map (put k v s) = mods.
Proof.
  intros Hwf Hcap. pose proof Hwf as [Hl Hb].
  destruct (m_cache_map s !! k) as [it|] eqn:Hm.
  - exists (erase it (m_cache_list s)), (<[k := true]> (m_modification_map s)).
    split; [apply sublist_filter|]. split; [apply lookup_insert_eq|].
    intros v. rewrite (put_hit s k v it Hwf Hm).
    by rewrite (put_insert_list_hit s k v it Hl Hm).
  - destruct (decide (size s < m_max_cache_size s)) as [Hlt|Hge].
    + exists (m_cache_list s), (<[k := true]> (m_modification_map s)).
      split; [done|]. split; [apply lookup_insert_eq|].
      intros v. rewrite (put_room s k v Hm Hlt).
      by rewrite (put_insert_list_miss s k v Hm).
    + destruct (put_full_state s k EmptyString Hwf Hm Hcap)
        as (lru & Hlru & Hne & _ & _); [lia|].
      exists (pop_back (m_cache_list s)),
             (delete (node_key lru) (<[k := true]> (m_modification_map s))).
      split; [apply sublist_pop_back|].
      split; [by rewrite lookup_delete_ne, lookup_insert_eq|].
      intros v.
      destruct (put_full_state s k v Hwf Hm Hcap)
        as (lru' & Hlru' & _ & _ & ->); [lia|].
      rewrite Hlru in Hlru'. by injection Hlru' as <-.
Qed.

(** Reading the node at the front by its own iterator leaves the list as it
    is. *)
Lemma splice_front_head (l : list node) (it : list_itr) (e : key_val_pair) :
  NoDup (itrs ((it, e) :: l)) →
  splice_front it ((it, e) :: l) = (it, e) :: l.
Proof.
  unfold itrs. rewrite fmap_cons. intros [Hn _]%NoDup_cons.
  unfold splice_front. cbn [find_node fst]. rewrite decide_True by done.
  change (erase it ((it, e) :: l)) with (erase (it, e).1 ((it, e) :: l)).
  rewrite erase_cons_eq. cbn [fst]. by rewrite erase_absent.
Qed.

End put_shape.

(** X3. In a reachable state with a capacity of at least one, [get(k)]
    right after [put(k, v)] answers [v] and changes nothing: the object is
    in the very state the [put] left. *)
Theorem get_after_put (s : DataStore) (k v : string) :
  reachable s → 1 ≤ m_max_cache_size s →
  get k (put k v s) = (v, put k v s).
Proof.
  intros Hwf%reachable_wf Hcap.
  destruct (put_front s k v Hwf Hcap) as (Hh & Hm & _).
  pose proof (wf_put s k v Hwf) as [[Hi _ _] _].
  rewrite (get_hit _ k _ Hm).
  destruct (m_cache_list (put k v s)) as [|n l] eqn:Hl; [done|].
  injection Hh as ->.
  rewrite splice_front_head by exact Hi.
  unfold deref. cbn [find_node fst]. rewrite decide_True by done. cbn.
  f_equal. destruct (put k v s); simpl in *; by subst.
Qed.

Lemma get_after_put_witness :
  get "2" (put "2" "deux" (run [Put "1" "one"; Put "2" "two"] (store 2)))
  = ("deux", put "2" "deux" (run [Put "1" "one"; Put "2" "two"] (store 2))).
Proof.
  apply get_after_put.
  - apply reachable_run, store_reachable.
  - vm_compute. lia.
Defined.

Section reload.
Implicit Types (s : DataStore) (k v value : string).

(** With a capacity of at least one, a miss whose load succeeds answers the
    loaded value and leaves it at the front, resident and unmarked. *)
Lemma get_miss_cached s k value :
  wf s → 1 ≤ m_max_cache_size s →
  m_cache_map s !! k = None → readFromDB k EmptyString s = (true, value) →
  (get k s).1 = value ∧
  head (entries (get k s).2) = Some (k, value) ∧
  isInCache k (get k s).2 = true ∧
  isModified k (get k s).2 = false.
Proof.
  intros Hwf Hcap Hm Hr.
  destruct (put_front s k value Hwf Hcap) as (Hh & Hi & _).
  split.
  - unfold get. rewrite Hm, Hr.
    cbn [m_cache_map m_cache_list set_modification_map]. rewrite Hi.
    cbn [fst]. destruct (m_cache_list (put k value s)) as [|n l]; [done|].
    injection Hh as ->. unfold deref. cbn [find_node fst].
    by rewrite decide_True.
  - rewrite (get_miss s k value Hm Hr).
    unfold entries, isInCache, isModified.
    cbn [m_cache_list m_cache_map m_modification_map set_modification_map].
    rewrite lookup_insert_eq. split; [|split; [|done]].
    + destruct (m_cache_list (put k value s)); [done|]. by injection Hh as ->.
    + apply bool_decide_eq_true_2. rewrite Hi. eauto.
Qed.

(** With capacity zero nothing is ever resident. *)
Lemma capacity_zero_empty s :
  wf s → m_max_cache_size s = 0 → m_cache_list s = [] ∧ m_cache_map s = ∅.
Proof.
  intros [Hl Hb] Hz. pose proof Hl as [_ _ Hidx].
  assert (m_cache_list s = []) as Hnil.
  { apply length_zero_iff_nil. rewrite <- (linked_size s Hl). lia. }
  split; [done|]. by rewrite Hidx, Hnil.
Qed.

End reload.



(** X8. In a reachable state with a capacity of at least one, [get(k)] for
    a key without quote or NUL character that is not resident but has a row
    [v] in a readable table answers [v], leaves [(k, v)] at the front of the
    recency list, resident and not marked as modified, and keeps the number
    of resident entries within the capacity. *)
Theorem get_reloads_stored_value (s : DataStore) (k v : string) :
  reachable s → 1 ≤ m_max_cache_size s →
  sql_plain k = true →
  isInCache k s = false →
  online (m_db s) = true → data (m_db s) !! k = Some v →
  (get k s).1 = v ∧
  head (entries (get k s).2) = Some (k, v) ∧
  isInCache k (get k s).2 = true ∧
  isModified k (get k s).2 = false ∧
  size (get k s).2 ≤ m_max_cache_size s.
Proof.
  intros Hwf%reachable_wf Hcap Hk Hmiss Hon Hd.
  assert (m_cache_map s !! k = None) as Hm.
  { apply bool_decide_eq_false in Hmiss. by apply eq_None_not_Some. }
  pose proof (readFromDB_cases s k Hk) as Hr. rewrite Hon, Hd in Hr.
  destruct (get_miss_cached s k v Hwf Hcap Hm Hr) as (H1 & H2 & H3 & H4).
  repeat (split; [done|]).
  destruct (wf_get s k Hwf) as [_ Hb]. by rewrite get_max in Hb.
Qed.

Lemma get_reloads_stored_value_witness :
  let s := put "1" "one" (store1 1) in
  (get "2" s).1 = "two" ∧
  head (entries (get "2" s).2) = Some ("2", "two") ∧
  isInCache "2" (get "2" s).2 = true ∧
  isModified "2" (get "2" s).2 = false ∧
  size (get "2" s).2 ≤ m_max_cache_size s.
Proof.
  apply get_reloads_stored_value.
  - apply (reach_step (Put "1" "one")), (reach_new 1 db1). reflexivity.
  - vm_compute. lia.
  - reflexivity.
  - reflexivity.
  - reflexivity.
  - reflexivity.
Defined.

Section overwrite.
Implicit Types (s : DataStore) (k v : string).

(** The modification flags after a [put] with capacity zero: the key put
    loses its flag with its entry, the others keep theirs. *)
Lemma put_capacity_zero_modified s k v k' :
  wf s → m_max_cache_size s = 0 →
  isModified k' (put k v s)
  = if decide (k' = k) then false else isModified k' s.
Proof.
  intros Hwf Hz. destruct (capacity_zero_empty s Hwf Hz) as [Hnil Hmap].
  assert (m_cache_map s !! k = None) as Hm by by rewrite Hmap.
  rewrite (put_full s k v Hm) by (rewrite Hz; lia).
  rewrite (put_evict_eq _ (fresh [], (k, v)))
    by by rewrite (put_insert_list_miss s k v Hm), Hnil.
  unfold isModified, node_key. cbn. case_decide as Hk.
  - subst k'. by rewrite lookup_delete_eq.
  - by rewrite lookup_delete_ne, lookup_insert_ne.
Qed.

End overwrite.

(** X5. In a reachable state, [put(k, v1)] followed by [put(k, v2)] leaves
    the same resident entries in the same order, the same modification
    flags, the same number of entries and the same database as [put(k, v2)]
    alone: the first value is overwritten without a trace. *)
Theorem put_put_overwrites (s : DataStore) (k v1 v2 : string) :
  reachable s →
  entries (put k v2 (put k v1 s)) = entries (put k v2 s) ∧
  (∀ k', isModified k' (put k v2 (put k v1 s)) = isModified k' (put k v2 s)) ∧
  size (put k v2 (put k v1 s)) = size (put k v2 s) ∧
  m_db (put k v2 (put k v1 s)) = m_db (put k v2 s).
Proof.
  intros Hwf%reachable_wf.
  pose proof (wf_put s k v1 Hwf) as Hwf1.
  pose proof (wf_put s k v2 Hwf) as Hwf2.
  pose proof (wf_put _ k v2 Hwf1) as Hwf12.
  assert (size (put k v2 (put k v1 s)) = size (put k v2 s) ↔
          length (entries (put k v2 (put k v1 s)))
          = length (entries (put k v2 s))) as Hsize.
  { destruct Hwf12 as [Hl12 _], Hwf2 as [Hl2 _].
    rewrite (linked_size _ Hl12), (linked_size _ Hl2).
    unfold entries. by rewrite !length_fmap. }
  destruct (decide (m_max_cache_size s = 0)) as [Hz|Hnz].
  - assert (m_max_cache_size (put k v1 s) = 0) as Hz1 by by rewrite put_max.
    destruct (put_capacity_zero s k v2 Hwf Hz) as [E2 _].
    destruct (put_capacity_zero _ k v2 Hwf1 Hz1) as [E12 _].
    assert (entries (put k v2 (put k v1 s)) = entries (put k v2 s)) as He
      by (unfold entries; by rewrite E2, E12).
    split; [done|]. split; [|split; [apply Hsize; by rewrite He|]].
    + intros k'. rewrite !put_capacity_zero_modified by done.
      by case_decide.
    + by rewrite !put_db.
  - assert (1 ≤ m_max_cache_size s) as Hcap by lia.
    destruct (put_shape s k Hwf Hcap) as (rest & mods & _ & Hmods & Hput).
    destruct (Hput v1) as [Hl1 Hm1]. destruct (Hput v2) as [Hl2 Hm2].
    destruct (put_front s k v1 Hwf Hcap) as (_ & Hidx1 & _).
    assert (put k v2 (put k v1 s) = put_insert k v2 (put k v1 s)) as E
      by by apply (put_hit _ k v2 (fresh (m_cache_list s))).
    assert (entries (put k v2 (put k v1 s)) = entries (put k v2 s)) as He.
    { unfold entries. rewrite E.
      rewrite (put_insert_list_hit _ k v2 (fresh (m_cache_list s)))
        by (done || apply Hwf1).
      rewrite Hl1, Hl2.
      change (erase (fresh (m_cache_list s))
                ((fresh (m_cache_list s), (k, v1)) :: rest))
        with (erase (fresh (m_cache_list s), (k, v1)).1
                ((fresh (m_cache_list s), (k, v1)) :: rest)).
      rewrite erase_cons_eq. cbn [fst]. rewrite erase_absent; [done|].
      destruct Hwf1 as [[Hi _ _] _]. rewrite Hl1 in Hi.
      unfold itrs in Hi. rewrite fmap_cons in Hi.
      by apply NoDup_cons in Hi as [Hi _]. }
    split; [done|]. split; [|split; [apply Hsize; by rewrite He|]].
    + intros k'. unfold isModified. rewrite E, Hm2.
      cbn [put_insert m_modification_map set_modification_map set_cache_map
           set_cache_list].
      rewrite Hm1. by rewrite insert_id.
    + by rewrite !put_db.
Qed.

Lemma put_put_overwrites_witness :
  let s := run [Put "1" "one"; Put "2" "two"] (store 2) in
  entries (put "3" "b" (put "3" "a" s)) = entries (put "3" "b" s) ∧
  (∀ k', isModified k' (put "3" "b" (put "3" "a" s))
         = isModified k' (put "3" "b" s)) ∧
  size (put "3" "b" (put "3" "a" s)) = size (put "3" "b" s) ∧
  m_db (put "3" "b" (put "3" "a" s)) = m_db (put "3" "b" s).
Proof.
  apply put_put_overwrites. apply reachable_run, store_reachable.
Defined.

Section modified_resident.
Implicit Types (s : DataStore) (k v : string).

Lemma isInCache_true s k :
  isInCache k s = true ↔ is_Some (m_cache_map s !! k).
Proof. apply bool_decide_eq_true. Qed.

Lemma put_insert_modified_resident s k v :
  modified_resident s → modified_resident (put_insert k v s).
Proof.
  intros Hs k'. unfold isModified. rewrite isInCache_true, put_insert_map.
  cbn [put_insert m_modification_map set_modification_map].
  destruct (decide (k = k')) as [->|Hne].
  - rewrite !lookup_insert_eq. eauto.
  - rewrite !lookup_insert_ne by done. intros Hk'.
    by apply isInCache_true, Hs.
Qed.

Lemma put_evict_modified_resident s :
  modified_resident s → modified_resident (put_evict s).
Proof.
  intros Hs. destruct (back (m_cache_list s)) as [n|] eqn:Hb.
  - rewrite (put_evict_eq s n Hb). intros k'.
    unfold isModified. rewrite isInCache_true. cbn.
    destruct (decide (node_key n = k')) as [->|Hne].
    + by rewrite lookup_delete_eq.
    + rewrite !lookup_delete_ne by done. intros Hk'.
      by apply isInCache_true, Hs.
  - unfold put_evict. by rewrite Hb.
Qed.

Lemma put_modified_resident s k v :
  modified_resident s → modified_resident (put k v s).
Proof.
  intros Hs. unfold put. case_decide.
  - by apply put_evict_modified_resident, put_insert_modified_resident.
  - by apply put_insert_modified_resident.
Qed.

Lemma get_modified_resident s k :
  modified_resident s → modified_resident (get k s).2.
Proof.
  intros Hs. destruct (m_cache_map s !! k) as [it|] eqn:Hm.
  - by rewrite (get_hit s k it Hm).
  - destruct (readFromDB k EmptyString s) as [[] value] eqn:Hr.
    + rewrite (get_miss s k value Hm Hr). intros k'.
      unfold isModified. rewrite isInCache_true.
      cbn [m_cache_map m_modification_map set_modification_map].
      destruct (decide (k = k')) as [->|Hne].
      * by rewrite lookup_insert_eq.
      * rewrite lookup_insert_ne by done. intros Hk'.
        by apply isInCache_true, (put_modified_resident s k value Hs).
    + unfold get. by rewrite Hm, Hr.
Qed.

Lemma step_modified_resident e s :
  modified_resident s → modified_resident (step e s).
Proof.
  destruct e; simpl;
    auto using put_modified_resident, get_modified_resident.
Qed.

End modified_resident.

(** X7. In every reachable state a key that the modification map marks as
    modified is resident: eviction takes the mark away with the entry, so
    the purge at destruction, which walks the resident entries, misses no
    marked key. *)
Theorem modified_keys_are_resident (s : DataStore) (k : string) :
  reachable s → isModified k s = true → isInCache k s = true.
Proof.
  intros Hr. revert k. fold (modified_resident s).
  induction Hr as [max db s Hnew|e s Hr IH].
  - apply new_inv in Hnew as [_ ->]. intros k Hk.
    unfold isModified in Hk. cbn in Hk. by rewrite lookup_empty in Hk.
  - by apply step_modified_resident.
Qed.

Lemma modified_keys_are_resident_witness :
  isInCache "3"
    (run [Put "1" "one"; Put "2" "two"; Get "1"; Put "3" "three"] (store 2))
  = true.
Proof.
  apply modified_keys_are_resident.
  - apply reachable_run, store_reachable.
  - reflexivity.
Defined.

(** X6. In a reachable state, [get(k)] for a resident key with cached value
    [v] answers [v] without looking at the database, moves [(k, v)] to the
    front and leaves the other entries in their order; the index, the
    modification map, the number of entries and the database are
    unchanged. A read marks nothing. *)
Theorem get_hit_preserves (s : DataStore) (k v : string) :
  reachable s → (k, v) ∈ entries s →
  (get k s).1 = v ∧
  (∃ rest, entries (get k s).2 = (k, v) :: rest ∧
           rest `sublist_of` entries s ∧
           entries s ≡ₚ (k, v) :: rest) ∧
  m_cache_map (get k s).2 = m_cache_map s ∧
  m_modification_map (get k s).2 = m_modification_map s ∧
  size (get k s).2 = size s ∧
  m_db (get k s).2 = m_db s.
Proof.
  intros Hwf%reachable_wf ([it [k0 v0]] & [= <- <-] & Hin)%list_elem_of_fmap.
  pose proof Hwf as [Hl _]. pose proof Hl as [Hi Hk Hidx].
  assert (m_cache_map s !! k = Some it) as Hm
    by (rewrite Hidx; by apply (index_elem_Some _ k it v)).
  split; [by apply (get_resident_value s k it v)|].
  destruct (get_hit_front s k it Hwf Hm) as (v' & Hin' & _ & Hlist).
  destruct (linked_key_unique s k it it v' v Hl Hin' Hin) as [_ ->].
  split.
  - exists (snd <$> erase it (m_cache_list s)). unfold entries.
    rewrite Hlist. split; [done|]. split.
    + apply fmap_sublist, sublist_filter.
    + change ((k, v) :: (snd <$> erase it (m_cache_list s)))
        with (snd <$> ((it, (k, v)) :: erase it (m_cache_list s))).
      apply fmap_Permutation. by apply (erase_perm _ (it, (k, v))).
  - by rewrite (get_hit s k it Hm).
Qed.

Lemma get_hit_preserves_witness :
  let s := run [Put "1" "one"; Put "2" "two"; Put "3" "three"] (store 3) in
  (get "1" s).1 = "one" ∧
  (∃ rest, entries (get "1" s).2 = ("1", "one") :: rest ∧
           rest `sublist_of` entries s ∧
           entries s ≡ₚ ("1", "one") :: rest) ∧
  m_cache_map (get "1" s).2 = m_cache_map s ∧
  m_modification_map (get "1" s).2 = m_modification_map s ∧
  size (get "1" s).2 = size s ∧
  m_db (get "1" s).2 = m_db s.
Proof.
  apply get_hit_preserves.
  - apply reachable_run, store_reachable.
  - vm_compute. do 2 right. left.
Defined.

(** X12. In a reachable state with a capacity of at least one, after
    [put(k, v)] the recency list is [(k, v)] followed by entries of the old
    list in their old order, none of them for [k]: a [put] never reorders
    the other entries. *)
Theorem put_keeps_order (s : DataStore) (k v : string) :
  reachable s → 1 ≤ m_max_cache_size s →
  ∃ rest, entries (put k v s) = (k, v) :: rest ∧
          rest `sublist_of` entries s ∧
          k ∉ rest.*1.
Proof.
  intros Hwf%reachable_wf Hcap.
  destruct (put_shape s k Hwf Hcap) as (rest & mods & Hsub & _ & Hput).
  destruct (Hput v) as [Hl _]. exists (snd <$> rest). unfold entries.
  rewrite Hl. split; [done|]. split; [by apply fmap_sublist|].
  destruct (wf_put s k v Hwf) as [[_ Hk _] _]. rewrite Hl in Hk.
  unfold keys in Hk. rewrite fmap_cons in Hk.
  apply NoDup_cons in Hk as [Hk _].
  by rewrite <- list_fmap_compose.
Qed.

Lemma put_keeps_order_witness :
  let s := run [Put "1" "one"; Put "2" "two"; Put "3" "three"] (store 3) in
  ∃ rest, entries (put "2" "deux" s) = ("2", "deux") :: rest ∧
          rest `sublist_of` entries s ∧
          "2" ∉ rest.*1.
Proof.
  apply put_keeps_order.
  - apply reachable_run, store_reachable.
  - vm_compute. lia.
Defined.

(** X13. In a reachable state the number of resident entries after
    [put(k, v)] is unchanged when [k] was resident, and otherwise one more,
    capped at the capacity. *)
Theorem put_size (s : DataStore) (k v : string) :
  reachable s →
  size (put k v s)
  = if isInCache k s then size s
    else Nat.min (S (size s)) (m_max_cache_size s).
Proof.
  intros Hwf%reachable_wf. pose proof Hwf as [Hl Hb].
  destruct (m_cache_map s !! k) as [it|] eqn:Hm.
  - rewrite (put_hit s k v it Hwf Hm), put_insert_size.
    unfold isInCache. rewrite Hm. by rewrite bool_decide_eq_true_2 by eauto.
  - assert (isInCache k s = false) as ->.
    { apply bool_decide_eq_false_2. rewrite Hm. by intros [? ?]. }
    destruct (decide (size s < m_max_cache_size s)) as [Hlt|Hge].
    + rewrite (put_room s k v Hm Hlt), (put_insert_size_miss s k v Hm). lia.
    + rewrite (put_full s k v Hm) by lia.
      destruct (put_insert_back s k v Hl) as [n Hn].
      destruct (put_evict_linked _ n (put_insert_linked s k v Hl) Hn)
        as [_ Hsz].
      rewrite (put_insert_size_miss s k v Hm) in Hsz. lia.
Qed.

Lemma put_size_witness :
  let s := run [Put "1" "one"; Put "2" "two"] (store 2) in
  size (put "3" "three" s)
  = if isInCache "3" s then size s
    else Nat.min (S (size s)) (m_max_cache_size s).
Proof.
  apply put_size. apply reachable_run, store_reachable.
Defined.

(** X14. In a reachable state [put(k, v)] drops at most one entry of
    another key, and only when it has to: an entry [(k', v')] with
    [k' ≠ k] that was resident is still resident with the same value, unless
    [k] was not resident, the cache was full and [(k', v')] was the last
    entry of the recency list. *)
Theorem put_drops_only_the_last (s : DataStore) (k v k' v' : string) :
  reachable s → k' ≠ k → (k', v') ∈ entries s →
  (k', v') ∈ entries (put k v s) ∨
  (isInCache k s = false ∧ size s = m_max_cache_size s ∧
   last (entries s) = Some (k', v')).
Proof.
  intros Hwf%reachable_wf Hne Hin. pose proof Hwf as [Hl Hb].
  pose proof Hl as [Hi Hk Hidx].
  assert (1 ≤ m_max_cache_size s) as Hcap.
  { destruct (decide (m_max_cache_size s = 0)) as [Hz|]; [|lia].
    destruct (capacity_zero_empty s Hwf Hz) as [Hnil _].
    unfold entries in Hin. rewrite Hnil in Hin. by apply elem_of_nil in Hin. }
  apply list_elem_of_fmap in Hin as ([it' [k0 v0]] & [= <- <-] & Hin).
  destruct (m_cache_map s !! k) as [it|] eqn:Hm.
  - left. destruct (linked_lookup s k it Hl Hm) as (v0 & Hin0 & _).
    unfold entries.
    rewrite (put_hit s k v it Hwf Hm), (put_insert_list_hit s k v it Hl Hm).
    rewrite fmap_cons. right.
    apply (list_elem_of_fmap_2' snd _ (it', (k', v'))); [|done].
    apply list_elem_of_filter. split; [|done]. simpl. intros ->.
    pose proof (find_node_Some _ it _ Hi Hin eq_refl) as F1.
    pose proof (find_node_Some _ it _ Hi Hin0 eq_refl) as F2.
    congruence.
  - destruct (decide (size s < m_max_cache_size s)) as [Hlt|Hge].
    + left. unfold entries.
      rewrite (put_room s k v Hm Hlt), (put_insert_list_miss s k v Hm).
      rewrite fmap_cons. right.
      by apply (list_elem_of_fmap_2' snd _ (it', (k', v'))).
    + destruct (put_full_state s k v Hwf Hm Hcap)
        as (lru & Hlru & _ & _ & ->); [lia|].
      unfold entries. cbn [m_cache_list].
      rewrite (pop_back_snoc _ _ Hlru) in Hin.
      apply elem_of_app in Hin as [Hin|Hin%list_elem_of_singleton].
      * left. rewrite fmap_cons. right.
        by apply (list_elem_of_fmap_2' snd _ (it', (k', v'))).
      * right. subst lru. split; [|split; [lia|]].
        -- apply bool_decide_eq_false_2. rewrite Hm. by intros [? ?].
        -- rewrite (pop_back_snoc _ _ Hlru), fmap_app. apply last_snoc.
Qed.

Lemma put_drops_only_the_last_witness :
  let s := run [Put "1" "one"; Put "2" "two"] (store 2) in
  ("2", "two") ∈ entries (put "3" "three" s) ∨
  (isInCache "3" s = false ∧ size s = m_max_cache_size s ∧
   last (entries s) = Some ("2", "two")).
Proof.
  apply put_drops_only_the_last.
  - apply reachable_run, store_reachable.
  - discriminate.
  - vm_compute. left.
Defined.

(** X9. While the database is unavailable, in a reachable state, [get]
    still answers a resident key with its cached value, and for a key that
    is not resident it answers the empty string and changes nothing at
    all. *)
Theorem get_during_outage (s : DataStore) (k : string) :
  reachable s → online (m_db s) = false →
  (∀ v, (k, v) ∈ entries s → (get k s).1 = v) ∧
  (isInCache k s = false → get k s = (EmptyString, s)).
Proof.
  intros Hwf%reachable_wf Hoff. split.
  - intros v ([it [k0 v0]] & [= <- <-] & Hin)%list_elem_of_fmap.
    by apply (get_resident_value s k it v).
  - intros Hmiss. apply get_load_error; [|done].
    apply bool_decide_eq_false in Hmiss. by apply eq_None_not_Some.
Qed.

Lemma get_during_outage_witness :
  let s := run [Put "1" "one"; Fault false] (store1 2) in
  (∀ v, ("2", v) ∈ entries s → (get "2" s).1 = v) ∧
  (isInCache "2" s = false → get "2" s = (EmptyString, s)).
Proof.
  apply get_during_outage.
  - apply reachable_run, (reach_new 2 db1). reflexivity.
  - reflexivity.
Defined.

(** X10. In any state, [purgeToStorage] leaves the recency list, the index
    and the modification map as they are (the marks are not cleared) and
    does not touch the database when no resident entry is marked. It
    reports failure whenever some resident entry is marked and the database
    is unavailable; when the marked entries hold no quote and no NUL
    character, that is the only way it reports failure. *)
Theorem purgeToStorage_result (s : DataStore) :
  m_cache_list (purgeToStorage s).2 = m_cache_list s ∧
  m_cache_map (purgeToStorage s).2 = m_cache_map s ∧
  m_modification_map (purgeToStorage s).2 = m_modification_map s ∧
  (dirty_entries s = [] → purgeToStorage s = (true, s)) ∧
  (dirty_entries s ≠ [] → online (m_db s) = false →
   (purgeToStorage s).1 = false) ∧
  (Forall (λ r, row_plain r = true) (dirty_entries s) →
   (purgeToStorage s).1 = false →
   dirty_entries s ≠ [] ∧ online (m_db s) = false).
Proof.
  destruct (decide (dirty_entries s = [])) as [Hd|Hd].
  - rewrite (purgeToStorage_clean s Hd). by repeat (split; [done|]).
  - rewrite (purgeToStorage_dirty s Hd). cbn [fst snd].
    repeat (split; [done|]). split.
    + intros _ Hoff. unfold exec, exec_stmt. by rewrite Hoff.
    + intros Hp. unfold exec. rewrite parse_stmt_values_text by done.
      unfold exec_stmt. by destruct (online (m_db s)).
Qed.

Lemma purgeToStorage_result_witness :
  let s := run [Put "1" "one"; Fault false] (store 2) in
  m_cache_list (purgeToStorage s).2 = m_cache_list s ∧
  m_cache_map (purgeToStorage s).2 = m_cache_map s ∧
  m_modification_map (purgeToStorage s).2 = m_modification_map s ∧
  (dirty_entries s = [] → purgeToStorage s = (true, s)) ∧
  (dirty_entries s ≠ [] → online (m_db s) = false →
   (purgeToStorage s).1 = false) ∧
  ((purgeToStorage s).1 = false →
   dirty_entries s ≠ [] ∧ online (m_db s) = false).
Proof.
  pose proof (purgeToStorage_result
                (run [Put "1" "one"; Fault false] (store 2)))
    as (H1 & H2 & H3 & H4 & H5 & H6).
  repeat (split; [assumption|]).
  apply H6. vm_compute. repeat constructor.
Defined.

Section reopen.
Implicit Types (s : DataStore) (k v : string).

Lemma delete_online s : online (DataStore_delete s) = online (m_db s).
Proof.
  destruct (decide (dirty_entries s = [])) as [Hd|Hd].
  - by rewrite delete_clean.
  - rewrite delete_dirty_text by done. unfold exec, exec_stmt.
    by destruct (online (m_db s)).
Qed.

Lemma delete_data_dirty s k v :
  Forall (λ r, row_plain r = true) (dirty_entries s) →
  linked s → online (m_db s) = true →
  (k, v) ∈ entries s → isModified k s = true →
  data (DataStore_delete s) !! k = Some v.
Proof.
  intros Hp Hl Hon Hin Hmod.
  assert ((k, v) ∈ dirty_entries s) as Hd by by apply list_elem_of_filter.
  assert (dirty_entries s ≠ []) as Hne.
  { intros Hnil. rewrite Hnil in Hd. by apply elem_of_nil in Hd. }
  rewrite delete_dirty, exec_data by done. simpl.
  apply upsert_present; [|done]. by apply dirty_entries_NoDup.
Qed.

End reopen.

(** X11. Round trip through the database: if a reachable object whose
    database is available is destroyed while [(k, v)] is resident and marked
    as modified, and the entries marked as modified hold no quote and no NUL
    character, then a new [DataStore] of capacity at least one can be
    constructed on the database it leaves, and its [get(k)] answers [v]. *)
Theorem destroyed_then_reopened (s : DataStore) (k v : string) (max' : nat) :
  reachable s → online (m_db s) = true →
  Forall (λ r, row_plain r = true) (dirty_entries s) →
  (k, v) ∈ entries s → isModified k s = true →
  1 ≤ max' →
  ∃ s', DataStore_new max' (DataStore_delete s) = Some s' ∧
        (get k s').1 = v.
Proof.
  intros [Hl _]%reachable_wf Hon Hp Hin Hmod Hcap.
  pose proof (delete_data_dirty s k v Hp Hl Hon Hin Hmod) as Hd.
  assert (sql_plain k = true) as Hk.
  { assert ((k, v) ∈ dirty_entries s) as Hkv
      by by apply list_elem_of_filter.
    rewrite Forall_forall in Hp. apply Hp in Hkv.
    unfold row_plain in Hkv. by apply andb_prop in Hkv as [? _]. }
  assert (online (DataStore_delete s) = true) as Hon'
    by by rewrite delete_online.
  eexists. split; [by apply new_online|].
  set (s' := mk_DataStore _ _ _ _ _).
  assert (wf s') as Hwf' by by apply (wf_new max' (DataStore_delete s)),
                                 new_online.
  assert (readFromDB k EmptyString s' = (true, v)) as Hr.
  { rewrite readFromDB_cases by done. subst s'. cbn. by rewrite Hd. }
  by destruct (get_miss_cached s' k v Hwf' Hcap eq_refl Hr) as [-> _].
Qed.

Lemma destroyed_then_reopened_witness :
  ∃ s', DataStore_new 1
          (DataStore_delete (run [Put "1" "one"; Put "2" "two"] (store 2)))
        = Some s' ∧
        (get "1" s').1 = "one".
Proof.
  apply destroyed_then_reopened.
  - apply reachable_run, store_reachable.
  - reflexivity.
  - vm_compute. repeat constructor.
  - vm_compute. right. left.
  - reflexivity.
  - lia.
Defined.

(** X19. The texts of [writeToDB] and [readFromDB] fit together. For a key
    and a value without quote or NUL character, on an available database:
    the write reports success, a read of the same key then yields the value
    written, and a read of another such key yields what it yielded before.
    On an unavailable database, whatever the strings, the write reports
    failure and leaves the table alone, and the read reports failure and
    leaves its [value] argument alone. *)
Theorem write_then_read (s : DataStore) (k v x : string) :
  (sql_plain k = true → sql_plain v = true → online (m_db s) = true →
     (writeToDB k v s).1 = true ∧
     readFromDB k x (writeToDB k v s).2 = (true, v) ∧
     ∀ k', sql_plain k' = true → k' ≠ k →
           readFromDB k' x (writeToDB k v s).2 = readFromDB k' x s) ∧
  (online (m_db s) = false →
     (writeToDB k v s).1 = false ∧
     data (m_db (writeToDB k v s).2) = data (m_db s) ∧
     readFromDB k x (writeToDB k v s).2 = (false, x)).
Proof.
  split.
  - intros Hk Hv Hon. rewrite (writeToDB_plain s k v Hk Hv). cbn [fst snd].
    unfold exec_stmt. rewrite Hon. cbn [apply_stmt fst snd upsert foldl].
    split; [done|]. split.
    + rewrite (readFromDB_plain _ k x Hk). cbn. by rewrite lookup_insert_eq.
    + intros k' Hk' Hne. rewrite !(readFromDB_plain _ k' x Hk'). cbn.
      by rewrite Hon, lookup_insert_ne.
  - intros Hoff. unfold writeToDB, exec, exec_stmt. rewrite Hoff.
    cbn [fst snd]. split; [done|]. split; [done|].
    by apply readFromDB_offline.
Qed.

Lemma write_then_read_witness :
  (online (m_db (store 1)) = true →
     (writeToDB "1" "one" (store 1)).1 = true ∧
     readFromDB "1" "x" (writeToDB "1" "one" (store 1)).2 = (true, "one") ∧
     ∀ k', sql_plain k' = true → k' ≠ "1" →
           readFromDB k' "x" (writeToDB "1" "one" (store 1)).2
           = readFromDB k' "x" (store 1)) ∧
  (online (m_db (store 1)) = false →
     (writeToDB "1" "one" (store 1)).1 = false ∧
     data (m_db (writeToDB "1" "one" (store 1)).2) = data (m_db (store 1)) ∧
     readFromDB "1" "x" (writeToDB "1" "one" (store 1)).2 = (false, "x")).
Proof.
  destruct (write_then_read (store 1) "1" "one" "x") as [H1 H2].
  split; [|exact H2]. apply H1; reflexivity.
Defined.

(** X16. [TestPut] passes on every database that can be opened, whatever
    the table holds: its six assertions hold, and when its [DataStore] goes
    out of scope one statement writes the three entries, most recent
    first. *)
Theorem TestPut_passes (db : sqlite3) :
  online db = true →
  TestPut db
  = Some ([true; true; true; true; true; true],
          mk_sqlite3
            (<["1" := "one"]>
               (<["2" := "two"]> (<["3" := "three"]> (data db))))
            true
            ((journal db ++ [CreateTable])
             ++ [InsertOrReplace
                   [("3", "three"); ("2", "two"); ("1", "one")]])
            (foreign db)).
Proof.
  destruct db as [tbl on j f]. cbn. intros ->. by vm_compute.
Qed.

Lemma TestPut_passes_witness :
  TestPut db1
  = Some ([true; true; true; true; true; true],
          mk_sqlite3
            (<["1" := "one"]>
               (<["2" := "two"]> (<["3" := "three"]> (data db1))))
            true
            ((journal db1 ++ [CreateTable])
             ++ [InsertOrReplace
                   [("3", "three"); ("2", "two"); ("1", "one")]])
            (foreign db1)).
Proof. apply TestPut_passes. reflexivity. Defined.

(** X17. [TestPutUpdate] passes on every database that can be opened: both
    reads answer from the cache, and at the end only the second value is
    written. *)
Theorem TestPutUpdate_passes (db : sqlite3) :
  online db = true →
  TestPutUpdate db
  = Some ([true; true; true; true; true; true],
          mk_sqlite3 (<["1" := "numberone"]> (data db)) true
            ((journal db ++ [CreateTable])
             ++ [InsertOrReplace [("1", "numberone")]])
            (foreign db)).
Proof.
  destruct db as [tbl on j f]. cbn. intros ->. by vm_compute.
Qed.

Lemma TestPutUpdate_passes_witness :
  TestPutUpdate db1
  = Some ([true; true; true; true; true; true],
          mk_sqlite3 (<["1" := "numberone"]> (data db1)) true
            ((journal db1 ++ [CreateTable])
             ++ [InsertOrReplace [("1", "numberone")]])
            (foreign db1)).
Proof. apply TestPutUpdate_passes. reflexivity. Defined.

Section test_max_cache_size.

(** The [get("1")] of [TestMaxCacheSize]: a miss, since ["1"] was evicted,
    and a reload of whatever the table holds for ["1"]. *)
Lemma TestMaxCacheSize_get (db : sqlite3) :
  online db = true →
  get "1"
    (put "2" "two"
       (put "1" "one"
          (mk_DataStore [] ∅ ∅ 1
             (mk_sqlite3 (data db) true (journal db ++ [CreateTable])
                         (foreign db)))))
  = (default EmptyString (data db !! "1"),
     mk_DataStore [(3, ("1", default EmptyString (data db !! "1")))]
                  {["1" := 3]} {["1" := false]} 1
                  (mk_sqlite3 (data db) true (journal db ++ [CreateTable])
                              (foreign db))).
Proof.
  intros Hon. set (s0 := mk_DataStore _ _ _ _ _).
  set (s2 := put "2" "two" (put "1" "one" s0)).
  assert (wf s2) as Hwf.
  { do 2 apply wf_put. apply (wf_new 1 db). by apply new_online. }
  assert (m_cache_map s2 !! "1" = None) as Hm by by vm_compute.
  assert (readFromDB "1" EmptyString s2
          = (true, default EmptyString (data db !! "1"))) as Hr.
  { rewrite readFromDB_cases by done. subst s2. by rewrite !put_db. }
  assert (1 ≤ m_max_cache_size s2) as Hcap
    by (subst s2; rewrite !put_max; done).
  destruct (get_miss_cached s2 "1" _ Hwf Hcap Hm Hr) as (Hv & _).
  pose proof (get_miss s2 "1" _ Hm Hr) as Hs.
  rewrite (surjective_pairing (get "1" s2)), Hv, Hs.
  f_equal; subst s2 s0; by vm_compute.
Qed.

End test_max_cache_size.

(** X18. [TestMaxCacheSize] on a database that can be opened: its checks on
    size and residency hold, but its expectation that [get("1")] answers
    ["one"] after the eviction holds exactly when the table already has the
    row [("1", "one")] before the test; and the test leaves the table as it
    found it. So on a new database the expectation fails, and it fails
    again on every later run. *)
Theorem TestMaxCacheSize_outcome (db : sqlite3) :
  online db = true →
  TestMaxCacheSize db
  = Some ([true; true; true; bool_decide (data db !! "1" = Some "one"); true],
          mk_sqlite3 (data db) true (journal db ++ [CreateTable])
                     (foreign db)).
Proof.
  intros Hon.
  assert (bool_decide (data db !! "1" = Some "one")
          = bool_decide (default EmptyString (data db !! "1") = "one")) as ->.
  { apply bool_decide_ext. destruct (data db !! "1"); simpl; naive_solver. }
  unfold TestMaxCacheSize. rewrite (new_online 1 db Hon).
  cbn [mbind option_bind]. cbv zeta.
  rewrite (TestMaxCacheSize_get db Hon).
  destruct db as [tbl on j f]. cbn in Hon. subst on. by vm_compute.
Qed.

Lemma TestMaxCacheSize_outcome_witness :
  TestMaxCacheSize db0
  = Some ([true; true; true; bool_decide (data db0 !! "1" = Some "one"); true],
          mk_sqlite3 (data db0) true (journal db0 ++ [CreateTable])
                     (foreign db0)).
Proof. apply TestMaxCacheSize_outcome. reflexivity. Defined.

Section position.
Implicit Types (s : DataStore) (k v : string) (l : list node) (i j : nat).

(** Unlinking a node does not push any other node back. *)
Lemma erase_position l it k i :
  keys l !! i = Some k → (∀ n, n ∈ l → n.1 = it → node_key n ≠ k) →
  ∃ j, j ≤ i ∧ keys (erase it l) !! j = Some k.
Proof.
  revert i. induction l as [|m l IH]; intros i Hi Hit; [done|].
  destruct (decide (m.1 = it)) as [Hm|Hm].
  - rewrite <- Hm, erase_cons_eq, Hm. destruct i as [|i].
    + simpl in Hi. injection Hi as Hi. exfalso.
      apply (Hit m); [by left|done|done].
    + destruct (IH i) as (j & Hj & Hk); [done| |].
      * intros n Hn. apply Hit. by right.
      * exists j. split; [lia|done].
  - rewrite erase_cons_ne by done. destruct i as [|i].
    + exists 0. split; [lia|done].
    + destruct (IH i) as (j & Hj & Hk); [done| |].
      * intros n Hn. apply Hit. by right.
      * exists (S j). split; [lia|done].
Qed.

Lemma erase_position_other s it k k' i :
  linked s → m_cache_map s !! k' = Some it → k' ≠ k →
  keys (m_cache_list s) !! i = Some k →
  ∃ j, j ≤ i ∧ keys (erase it (m_cache_list s)) !! j = Some k.
Proof.
  intros Hl Hm Hne Hi. apply erase_position; [done|].
  intros n Hn Hit. destruct (linked_lookup s k' it Hl Hm) as (v0 & Hin & _).
  destruct Hl as [Hnd _ _].
  pose proof (find_node_Some _ it _ Hnd Hn Hit) as F1.
  pose proof (find_node_Some _ it _ Hnd Hin eq_refl) as F2.
  rewrite F1 in F2. injection F2 as ->. unfold node_key. simpl. done.
Qed.

Lemma pop_back_position l k i :
  keys l !! i = Some k → i + 1 < length l →
  keys (pop_back l) !! i = Some k.
Proof.
  intros Hi Hlt. destruct (back l) as [n|] eqn:Hb.
  - pose proof (pop_back_snoc l n Hb) as Hl.
    assert (i < length (keys (pop_back l))) as Hlen.
    { unfold keys. rewrite length_fmap.
      apply (f_equal length) in Hl. rewrite length_app in Hl.
      simpl in Hl. lia. }
    rewrite Hl in Hi. unfold keys in Hi |- *. rewrite fmap_app in Hi.
    by rewrite lookup_app_l in Hi.
  - unfold back in Hb. apply last_None in Hb. subst l. simpl in Hlt. lia.
Qed.

(** A [put] moves a resident key back by at most one place, and keeps it
    resident unless it was in the last place of a full cache. *)
Lemma put_position s k k' v i :
  wf s → keys (m_cache_list s) !! i = Some k → i + 1 < m_max_cache_size s →
  ∃ j, j ≤ i + 1 ∧ keys (m_cache_list (put k' v s)) !! j = Some k.
Proof.
  intros Hwf Hi Hlt. pose proof Hwf as [Hl Hb].
  destruct (m_cache_map s !! k') as [it|] eqn:Hm.
  - rewrite (put_hit s k' v it Hwf Hm), (put_insert_list_hit s k' v it Hl Hm).
    destruct (decide (k' = k)) as [->|Hne].
    + exists 0. split; [lia|done].
    + destruct (erase_position_other s it k k' i Hl Hm Hne Hi) as (j & Hj & Hk).
      exists (S j). split; [lia|done].
  - destruct (decide (size s < m_max_cache_size s)) as [Hroom|Hfull].
    + rewrite (put_room s k' v Hm Hroom), (put_insert_list_miss s k' v Hm).
      exists (S i). split; [lia|done].
    + destruct (put_full_state s k' v Hwf Hm) as (lru & _ & _ & _ & ->);
        [lia..|].
      cbn [m_cache_list]. exists (S i). split; [lia|].
      unfold keys. rewrite fmap_cons. cbn [lookup list_lookup].
      apply pop_back_position; [done|].
      rewrite <- (linked_size s Hl). lia.
Qed.

Lemma get_position s k k' i :
  wf s → keys (m_cache_list s) !! i = Some k → i + 1 < m_max_cache_size s →
  ∃ j, j ≤ i + 1 ∧ keys (m_cache_list (get k' s).2) !! j = Some k.
Proof.
  intros Hwf Hi Hlt. pose proof Hwf as [Hl Hb].
  destruct (m_cache_map s !! k') as [it|] eqn:Hm.
  - destruct (get_hit_front s k' it Hwf Hm) as (v0 & _ & _ & ->).
    destruct (decide (k' = k)) as [->|Hne].
    + exists 0. split; [lia|done].
    + destruct (erase_position_other s it k k' i Hl Hm Hne Hi) as (j & Hj & Hk).
      exists (S j). split; [lia|done].
  - destruct (readFromDB k' EmptyString s) as [[] value] eqn:Hr.
    + rewrite (get_miss s k' value Hm Hr).
      cbn [m_cache_list set_modification_map].
      by apply put_position.
    + unfold get. rewrite Hm, Hr. exists i. split; [lia|done].
Qed.

Lemma step_position e s k i :
  wf s → keys (m_cache_list s) !! i = Some k → i + 1 < m_max_cache_size s →
  ∃ j, j ≤ i + 1 ∧ keys (m_cache_list (step e s)) !! j = Some k.
Proof.
  intros Hwf Hi Hlt. destruct e as [k' v|k'| | |up]; simpl.
  - by apply put_position.
  - by apply get_position.
  - exists i. split; [lia|done].
  - exists i. split; [lia|done].
  - exists i. split; [lia|done].
Qed.

Lemma run_position es s k i :
  wf s → keys (m_cache_list s) !! i = Some k →
  i + length es < m_max_cache_size s →
  ∃ j, j ≤ i + length es ∧ keys (m_cache_list (run es s)) !! j = Some k.
Proof.
  revert s i. induction es as [|e es IH]; intros s i Hwf Hi Hlt.
  - exists i. split; [simpl; lia|done].
  - simpl in *.
    destruct (step_position e s k i Hwf Hi) as (j & Hj & Hk); [lia|].
    destruct (IH (step e s) j) as (j' & Hj' & Hk').
    + by apply wf_step.
    + done.
    + rewrite step_max. lia.
    + exists j'. split; [lia|done].
Qed.

End position.

(** X15. The guarantee of the replacement policy: in a reachable state, the
    key at the front of the recency list (the one just put or just read) is
    still resident after any further calls, whatever they are, as long as
    there are fewer of them than the capacity. *)
Theorem front_key_survives (s : DataStore) (k : string) (es : list event) :
  reachable s → front_key s = Some k →
  length es < m_max_cache_size s →
  isInCache k (run es s) = true.
Proof.
  intros Hr Hfront Hlen. pose proof (reachable_wf s Hr) as Hwf.
  assert (keys (m_cache_list s) !! 0 = Some k) as H0.
  { unfold front_key in Hfront. unfold keys.
    by rewrite list_lookup_fmap, <- head_lookup. }
  destruct (run_position es s k 0 Hwf H0) as (j & _ & Hj); [simpl; lia|].
  destruct (reachable_wf _ (reachable_run es s Hr)) as [[_ _ Hidx] _].
  apply bool_decide_eq_true. rewrite Hidx.
  destruct (index (m_cache_list (run es s)) !! k) eqn:E; [eauto|].
  apply index_None in E. exfalso. apply E.
  by apply list_elem_of_lookup_2 in Hj.
Qed.

Lemma front_key_survives_witness :
  isInCache "3"
    (run [Put "4" "four"; Get "1"]
       (run [Put "1" "one"; Put "2" "two"; Put "3" "three"] (store 3)))
  = true.
Proof.
  apply front_key_survives.
  - apply reachable_run, store_reachable.
  - reflexivity.
  - vm_compute. lia.
Defined.

(** X20. A read can evict: in a reachable state whose cache is full, with a
    capacity of at least one and a readable database, [get(k)] for a key
    without quote or NUL character that is not resident puts the loaded
    value (the empty string when the table has no row for [k]) at the front
    and drops the last entry of the recency list, whether or not that entry
    was marked as modified, without writing anything to the database. *)
Theorem get_reload_evicts_last (s : DataStore) (k : string) :
  reachable s → 1 ≤ m_max_cache_size s →
  sql_plain k = true →
  isInCache k s = false → size s = m_max_cache_size s →
  online (m_db s) = true →
  entries (get k s).2
  = (k, default EmptyString (data (m_db s) !! k)) :: removelast (entries s) ∧
  m_db (get k s).2 = m_db s.
Proof.
  intros Hwf%reachable_wf Hcap Hk Hmiss Hfull Hon.
  assert (m_cache_map s !! k = None) as Hm.
  { apply bool_decide_eq_false in Hmiss. by apply eq_None_not_Some. }
  pose proof (readFromDB_cases s k Hk) as Hr. rewrite Hon in Hr.
  split; [|apply get_db].
  rewrite (get_miss s k _ Hm Hr).
  destruct (put_full_state s k (default EmptyString (data (m_db s) !! k))
              Hwf Hm Hcap) as (lru & Hlru & _ & _ & ->); [lia|].
  unfold entries. cbn [m_cache_list set_modification_map].
  rewrite fmap_cons. cbn [snd]. f_equal.
  rewrite (pop_back_snoc _ _ Hlru) at 2. rewrite fmap_app.
  change (snd <$> [lru]) with [lru.2]. by rewrite removelast_last.
Qed.

Lemma get_reload_evicts_last_witness :
  let s := put "1" "one" (store1 1) in
  entries (get "2" s).2
  = ("2", default EmptyString (data (m_db s) !! "2"))
      :: removelast (entries s) ∧
  m_db (get "2" s).2 = m_db s.
Proof.
  apply get_reload_evicts_last.
  - apply (reach_step (Put "1" "one")), (reach_new 1 db1). reflexivity.
  - vm_compute. lia.
  - reflexivity.
  - reflexivity.
  - reflexivity.
  - reflexivity.
Defined.
